(** * TSP.c: exact open-path travelling salesman by bitmask dynamic programming

    A shallow embedding of [get_city_index], [tsp_dp], [solve_tsp] and [main]
    of TSP.c, followed by the properties of the solver.

    Conventions.
    - [uint64_t] values are integers in [0, 2^64); every C addition that can
      exceed the width is written with [wrap64].
    - [int] city indices are integers; [-1] is the "no city" value.
    - The tables [dp] and [next_city] are two-dimensional arrays indexed by
      (city, visited mask); they are total maps here, initialised the way
      [solve_tsp] fills them.  The states the search reaches have a city below
      [city_count] and a mask below [2^city_count] ([reached_inv]).
    - [solve_tsp] allocates each row with
      [malloc((1ULL << city_count) * sizeof(...))], a product taken in 64 bits:
      [alloc_tables] gives the rows that size and faults where the fill loop
      runs past them, which it does for 61 to 63 cities.  [size_t] is 64 bits
      wide, [sizeof(uint64_t)] is 8 and [sizeof(int)] is 4.
    - Behaviour that C leaves undefined (a shift by the full width, a store
      past the end of an array) is an explicit [Fault].  The recursion, the
      [while (1)] loop and the read loop take a fuel argument; [OutOfFuel] is
      the third fault and never occurs for the fuel the model supplies
      ([main_never_out_of_fuel]).
    - Allocation is assumed to succeed. *)

From Stdlib Require Import ZArith List String Ascii Lia Bool DecimalString.
From Stdlib Require DecimalN DecimalPos.
Import ListNotations.
Local Open Scope Z_scope.

(** ** Machine integers *)

Definition MAX_CITIES : Z := 64.
Definition NO_PATH : Z := 18446744073709551615.   (* UINT64_MAX *)

Definition wrap64 (z : Z) : Z := z mod 2 ^ 64.

(** [1ULL << k]; C gives it a value only for [0 <= k < 64]. *)
Definition shl1 (k : Z) : Z := wrap64 (Z.shiftl 1 k).

(** [(1ULL << city_count) - 1] *)
Definition full_mask (city_count : Z) : Z := wrap64 (shl1 city_count - 1).

(** The indices visited by [for (int i = 0; i < n; i++)]. *)
Definition upto (n : Z) : list Z := map Z.of_nat (seq 0 (Z.to_nat n)).

(** ** Faults and the result monad *)

Inductive fault : Type :=
| OutOfFuel      (* the model ran out of fuel *)
| ShiftTooWide   (* 1ULL << 64, or a shift by a negative count *)
| OutOfBounds.   (* access past the end of cities[], di[][] or a table row *)

Inductive res (A : Type) : Type :=
| Ok (a : A)
| Fault (f : fault).
Arguments Ok {A} a.
Arguments Fault {A} f.

Definition bind {A B : Type} (m : res A) (k : A -> res B) : res B :=
  match m with
  | Ok a => k a
  | Fault f => Fault f
  end.

Notation "' p <- m ;; k" := (bind m (fun p => k))
  (at level 61, p pattern, m at next level, right associativity).

(** ** get_city_index *)

Fixpoint get_city_index_from (i : Z) (cities : list string) (city_name : string) : Z :=
  match cities with
  | [] => -1
  | c :: rest =>
      if String.eqb c city_name then i
      else get_city_index_from (i + 1) rest city_name
  end.

(** [cities] holds the [city_count] entries filled so far. *)
Definition get_city_index (cities : list string) (city_name : string) : Z :=
  get_city_index_from 0 cities city_name.

(** ** The memo table and the choice table *)

Record tables : Type := mkTables {
  dp : Z -> Z -> Z;            (* dp[current][visited] *)
  next_city : Z -> Z -> Z;     (* next_city[current][visited] *)
  evals : list (Z * Z)         (* instrumentation only: the states whose
                                  candidate loop has run, latest first *)
}.

(** The fill loop at the head of [solve_tsp]. *)
Definition init_tables : tables :=
  {| dp := fun _ _ => NO_PATH; next_city := fun _ _ => -1; evals := [] |}.

Definition upd (t : Z -> Z -> Z) (i j v : Z) : Z -> Z -> Z :=
  fun i' j' => if (i' =? i) && (j' =? j) then v else t i' j'.

(** The two stores that end [tsp_dp]. *)
Definition store (s : tables) (current visited min_cost best_next_city : Z) : tables :=
  {| dp := upd (dp s) current visited min_cost;
     next_city := upd (next_city s) current visited best_next_city;
     evals := (current, visited) :: evals s |}.

(** How often the candidate loop has run for state [(c, m)]. *)
Definition runs (s : tables) (c m : Z) : nat :=
  List.length (filter (fun e => (fst e =? c) && (snd e =? m)) (evals s)).

(** ** tsp_dp *)

Section Solver.

Variable city_count : Z.
Variable di : Z -> Z -> Z.

(** The test [!(visited & (1ULL << next)) && di[current][next] != NO_PATH]. *)
Definition candidate (current visited next : Z) : bool :=
  (Z.land visited (shl1 next) =? 0) && negb (di current next =? NO_PATH).

(** [visited | (1ULL << next)] *)
Definition mark (visited next : Z) : Z := Z.lor visited (shl1 next).

(** The candidate loop of [tsp_dp]; [rec] is the recursive call. *)
Fixpoint scan (rec : Z -> Z -> tables -> res (Z * tables))
    (current visited : Z) (nexts : list Z)
    (min_cost best_next_city : Z) (s : tables) : res (Z * Z * tables) :=
  match nexts with
  | [] => Ok (min_cost, best_next_city, s)
  | next :: rest =>
      if candidate current visited next
      then
        '(r, s1) <- rec next (mark visited next) s ;;
        let cost := wrap64 (di current next + r) in
        if cost <? min_cost
        then scan rec current visited rest cost next s1
        else scan rec current visited rest min_cost best_next_city s1
      else scan rec current visited rest min_cost best_next_city s
  end.

(** [tsp_dp].  The first test stands for the shift in
    [(1ULL << city_count) - 1], which has no value from 64 cities on; the shifts
    by [next] in the loop are by less than [city_count]. *)
Fixpoint tsp_dp (fuel : nat) (current visited : Z) (s : tables) : res (Z * tables) :=
  match fuel with
  | O => Fault OutOfFuel
  | S fuel' =>
      if 64 <=? city_count then Fault ShiftTooWide
      else if visited =? full_mask city_count then Ok (0, s)
      else if negb (dp s current visited =? NO_PATH) then Ok (dp s current visited, s)
      else
        '(min_cost, best_next_city, s1) <-
           scan (tsp_dp fuel') current visited (upto city_count) NO_PATH (-1) s ;;
        Ok (min_cost, store s1 current visited min_cost best_next_city)
  end.

(** ** The reconstruction loop of solve_tsp *)

Record walk : Type := mkWalk {
  w_current : Z;
  w_visited : Z;
  w_total_cost : Z;
  w_edges : list (Z * Z * Z)   (* (current, di[current][next], next), in order *)
}.

(** The [while (1)] loop of [solve_tsp]; the edge each round prints is
    appended to [w_edges]. *)
Fixpoint reconstruct (fuel : nat) (s : tables) (w : walk) : res walk :=
  match fuel with
  | O => Fault OutOfFuel
  | S fuel' =>
      let next := next_city s (w_current w) (w_visited w) in
      if next =? -1 then Ok w
      else
        let d := di (w_current w) next in
        reconstruct fuel' s
          {| w_current := next;
             w_visited := mark (w_visited w) next;
             w_total_cost := wrap64 (w_total_cost w + d);
             w_edges := w_edges w ++ [(w_current w, d, next)] |}
  end.

Definition start_walk : walk :=
  {| w_current := 0; w_visited := 1; w_total_cost := 0; w_edges := [] |}.

(** The exact sum of the costs of the emitted edges. *)
Fixpoint edge_sum (edges : list (Z * Z * Z)) : Z :=
  match edges with
  | [] => 0
  | (_, d, _) :: rest => d + edge_sum rest
  end.

(** Fuel that covers every call tree: one level per city plus the leaf. *)
Definition enough_fuel : nat := S (Z.to_nat city_count).

Definition root (s : tables) : res (Z * tables) := tsp_dp enough_fuel 0 1 s.

End Solver.

(** ** Printing *)

Local Open Scope string_scope.

Definition print_u64 (z : Z) : string := NilZero.string_of_uint (N.to_uint (Z.to_N z)).

Definition city_name (cities : list string) (i : Z) : string :=
  nth (Z.to_nat i) cities "".

(** [printf("%s -( %" PRIu64 " )-> %s\n", ...)], without the newline. *)
Definition edge_line (cities : list string) (e : Z * Z * Z) : string :=
  let '(from, d, to) := e in
  city_name cities from ++ " -( " ++ print_u64 d ++ " )-> " ++ city_name cities to.

Definition msg_no_route : string := "No valid TSP route found.".
Definition msg_header : string := "We will visit the cities in the following order:".
Definition total_line (total_cost : Z) : string := "Total cost: " ++ print_u64 total_cost.

(** ** solve_tsp *)

(** The number of entries of [size] bytes in the block that
    [malloc((1ULL << city_count) * size)] returns; the product is taken in
    64 bits. *)
Definition row_entries (city_count size : Z) : Z :=
  (wrap64 (shl1 city_count * size) / size)%Z.

(** The allocation and the fill loop at the head of [solve_tsp]: each of the
    [city_count] rows of [dp] has [sizeof(uint64_t) = 8] bytes per entry, each
    row of [next_city] has [sizeof(int) = 4], and entries
    [0 .. 1ULL << city_count) of both are stored.  Without a city no row is
    allocated and nothing is stored; from 64 cities on the shift has no value;
    a row of less than [1ULL << city_count] entries is overrun by the loop. *)
Definition alloc_tables (city_count : Z) : res tables :=
  if (city_count <=? 0)%Z then Ok init_tables
  else if (64 <=? city_count)%Z then Fault ShiftTooWide
  else if (row_entries city_count 8 <? shl1 city_count)%Z ||
          (row_entries city_count 4 <? shl1 city_count)%Z
  then Fault OutOfBounds
  else Ok init_tables.

(** The computation: the tables, the root result and, when it is not NO_PATH,
    the walk of the reconstruction loop.  The root call [tsp_dp(0, 1, ...)]
    shifts by [city_count] and, unless 1 is the full mask, reads [dp[0][1]]:
    a negative count has no shift and without a city there is no row 0. *)
Definition solve_tsp_run (city_count : Z) (di : Z -> Z -> Z) : res (Z * option walk) :=
  's0 <- alloc_tables city_count ;;
  if (city_count <? 0)%Z then Fault ShiftTooWide
  else if (city_count =? 0)%Z then Fault OutOfBounds
  else
  '(result, s) <- root city_count di s0 ;;
  if (result =? NO_PATH)%Z then Ok (result, None)
  else
    'w <- reconstruct di (enough_fuel city_count) s start_walk ;;
    Ok (result, Some w).

(** The lines written to stdout. *)
Definition solve_tsp (city_count : Z) (di : Z -> Z -> Z) (cities : list string)
  : res (list string) :=
  '(_, route) <- solve_tsp_run city_count di ;;
  match route with
  | None => Ok [msg_no_route]
  | Some w =>
      Ok ([msg_header] ++ map (edge_line cities) (w_edges w)
                       ++ [total_line (w_total_cost w)])%list
  end.

(** ** Reading the input file *)

Local Close Scope string_scope.

Definition newline : ascii := "010"%char.
Definition nul : ascii := "000"%char.

(** [fgets(line, n + 1, file)]: at most [n] characters, ending after the first
    newline.  The pair is the line and the unread rest; an empty line is the
    NULL return at end of file. *)
Fixpoint fgets (n : nat) (file : string) : string * string :=
  match n, file with
  | S n', String c rest =>
      if Ascii.eqb c newline then (String c EmptyString, rest)
      else let '(l, r) := fgets n' rest in (String c l, r)
  | _, _ => (EmptyString, file)
  end.

(** A buffer as the string functions see it: the characters before the first NUL. *)
Fixpoint c_str (buf : string) : string :=
  match buf with
  | EmptyString => EmptyString
  | String c rest => if Ascii.eqb c nul then EmptyString else String c (c_str rest)
  end.

(** The conversion [%<width>[^stop]]: the longest prefix of at most [width]
    characters other than [stop], and what follows it. *)
Fixpoint scanset (stop : ascii) (width : nat) (s : string) : string * string :=
  match width, s with
  | S w, String c rest =>
      if Ascii.eqb c stop then (EmptyString, s)
      else let '(m, r) := scanset stop w rest in (String c m, r)
  | _, _ => (EmptyString, s)
  end.

Definition isspace (c : ascii) : bool :=
  let n := nat_of_ascii c in
  (n =? 32)%nat || ((9 <=? n)%nat && (n <=? 13)%nat).

Fixpoint skip_space (s : string) : string :=
  match s with
  | String c rest => if isspace c then skip_space rest else s
  | EmptyString => s
  end.

Definition isdigit (c : ascii) : bool :=
  let n := nat_of_ascii c in (48 <=? n)%nat && (n <=? 57)%nat.

(** The decimal digits at the head of [s]: how many there are and their value. *)
Fixpoint digits (s : string) (count : nat) (acc : Z) : nat * Z :=
  match s with
  | String c rest =>
      if isdigit c
      then digits rest (S count) (10 * acc + Z.of_nat (nat_of_ascii c - 48))
      else (count, acc)
  | EmptyString => (count, acc)
  end.

(** The conversion [%" SCNu64 "] as the C library's strtoul performs it: blanks,
    an optional sign, at least one digit; a value past the width saturates at
    UINT64_MAX and a minus sign negates modulo 2^64. *)
Definition scan_u64 (s : string) : option Z :=
  let s1 := skip_space s in
  let '(neg, s2) :=
    match s1 with
    | String "-"%char r => (true, r)
    | String "+"%char r => (false, r)
    | _ => (false, s1)
    end in
  match digits s2 O 0 with
  | (O, _) => None
  | (_, v) =>
      Some (if NO_PATH <? v then NO_PATH else if neg then wrap64 (- v) else v)
  end.

(** [sscanf(line, "%511[^-]-%511[^:]: %" SCNu64, city1, city2, &distance)];
    [Some] is the return value 3. *)
Definition sscanf_edge (line : string) : option (string * string * Z) :=
  let '(city1, r1) := scanset "-"%char 511 line in
  match city1, r1 with
  | String _ _, String "-"%char r2 =>
      let '(city2, r3) := scanset ":"%char 511 r2 in
      match city2, r3 with
      | String _ _, String ":"%char r4 =>
          match scan_u64 (skip_space r4) with
          | Some distance => Some (city1, city2, distance)
          | None => None
          end
      | _, _ => None
      end
  | _, _ => None
  end.

(** ** main *)

Record report : Type := mkReport {
  exit_code : Z;
  stdout : list string;
  stderr : list string
}.

Definition fail_with (msg : string) : report :=
  {| exit_code := 1; stdout := []; stderr := [msg] |}.

Definition msg_usage : string := "Usage: ./tsp_solver <filename>"%string.
Definition msg_open : string := "Error opening the file"%string.
Definition msg_read : string := "Error reading file"%string.
Definition msg_name_too_long : string :=
  "Error: City name exceeds the maximum allowed length of 511 characters."%string.
Definition msg_too_many : string := "Error: Too many cities (maximum is 64)."%string.
Definition msg_empty : string :=
  "Error: The input file is empty or contains no valid data."%string.

(** The graph under construction: [cities[0 .. city_count)] and [di]. *)
Record graph : Type := mkGraph {
  g_cities : list string;
  g_di : Z -> Z -> Z
}.

Definition g_city_count (g : graph) : Z := Z.of_nat (List.length (g_cities g)).

(** All distances start at NO_PATH. *)
Definition empty_graph : graph :=
  {| g_cities := []; g_di := fun _ _ => NO_PATH |}.

(** Look the name up and append it when it is new.  [cities] has MAX_CITIES
    slots, so the store [cities[city_count] = ...] with [city_count = 64] is
    past its end. *)
Definition register (cities : list string) (name : string) : res (Z * list string) :=
  let index := get_city_index cities name in
  if index =? -1 then
    if MAX_CITIES <=? Z.of_nat (List.length cities) then Fault OutOfBounds
    else Ok (Z.of_nat (List.length cities), cities ++ [name])
  else Ok (index, cities).

(** The body of the [while (fgets(...))] loop for one line: either the program
    stops with a report or the graph grows. *)
Definition read_line (line : string) (g : graph) : res (report + graph) :=
  match sscanf_edge (c_str line) with
  | None => Ok (inl (fail_with msg_read))
  | Some (city1, city2, distance) =>
      if ((512 <=? String.length city1) || (512 <=? String.length city2))%nat
      then Ok (inl (fail_with msg_name_too_long))
      else
        '(city1_index, cities1) <- register (g_cities g) city1 ;;
        '(city2_index, cities2) <- register cities1 city2 ;;
        Ok (inr {| g_cities := cities2;
                   g_di := upd (upd (g_di g) city1_index city2_index distance)
                               city2_index city1_index distance |})
  end.

Fixpoint read_file (fuel : nat) (file : string) (g : graph) : res (report + graph) :=
  match fuel with
  | O => Fault OutOfFuel
  | S fuel' =>
      match fgets 99 file with
      | (EmptyString, _) => Ok (inr g)
      | (line, rest) =>
          'step <- read_line line g ;;
          match step with
          | inl r => Ok (inl r)
          | inr g' => read_file fuel' rest g'
          end
      end
  end.

(** The whole [while] loop over the file; each [fgets] takes at least one
    character, so the length of the file is fuel enough. *)
Definition parse (content : string) : res (report + graph) :=
  read_file (S (String.length content)) content empty_graph.

(** [main]: [argc] and the content of the file named by [argv[1]], [None] when
    it cannot be opened. *)
Definition main (argc : Z) (file : option string) : res report :=
  if negb (argc =? 2) then Ok (fail_with msg_usage)
  else
    match file with
    | None => Ok (fail_with msg_open)
    | Some content =>
        'parsed <- parse content ;;
        match parsed with
        | inl r => Ok r
        | inr g =>
            if g_city_count g >? MAX_CITIES then Ok (fail_with msg_too_many)
            else if g_city_count g =? 0 then Ok (fail_with msg_empty)
            else
              'out <- solve_tsp (g_city_count g) (g_di g) (g_cities g) ;;
              Ok {| exit_code := 0; stdout := out; stderr := [] |}
        end
    end.

Definition lf : string := String newline EmptyString.

(** A run with the file given on the command line. *)
Definition run (content : string) : res report := main 2 (Some content).

(** The distance table [main] builds from a list of edges (i, j, distance). *)
Fixpoint edges_di (edges : list (Z * Z * Z)) (di : Z -> Z -> Z) : Z -> Z -> Z :=
  match edges with
  | [] => di
  | (i, j, d) :: rest => edges_di rest (upd (upd di i j d) j i d)
  end.

Definition di_of (edges : list (Z * Z * Z)) : Z -> Z -> Z :=
  edges_di edges (fun _ _ => NO_PATH).

(** ** Sample inputs *)

(** One input line [a-b: d]. *)
Definition edge_text (a b d : string) : string :=
  (a ++ "-" ++ b ++ ": " ++ d ++ lf)%string.

(** A-B: 5, B-C: 10, A-C: 7. *)
Definition input_triangle : string :=
  (edge_text "A" "B" "5" ++ edge_text "B" "C" "10" ++ edge_text "A" "C" "7")%string.
Definition di_triangle : Z -> Z -> Z := di_of [(0, 1, 5); (1, 2, 10); (0, 2, 7)].

(** A-B: 5, C-D: 1: two components. *)
Definition input_split : string :=
  (edge_text "A" "B" "5" ++ edge_text "C" "D" "1")%string.
Definition di_split : Z -> Z -> Z := di_of [(0, 1, 5); (2, 3, 1)].

(** A-B: 5, C-C: 1: city C has no edge to another city. *)
Definition input_isolated : string :=
  (edge_text "A" "B" "5" ++ edge_text "C" "C" "1")%string.
Definition di_isolated : Z -> Z -> Z := di_of [(0, 1, 5); (2, 2, 1)].

(** A-B: 2^63, B-C: 2^63: the only route costs 2^64. *)
Definition input_wrap : string :=
  (edge_text "A" "B" "9223372036854775808" ++
   edge_text "B" "C" "9223372036854775808")%string.
Definition di_wrap : Z -> Z -> Z :=
  di_of [(0, 1, 9223372036854775808); (1, 2, 9223372036854775808)].

(** A-B: 2^64 - 2, B-C: 1: the only route costs 2^64 - 1. *)
Definition input_collapse : string :=
  (edge_text "A" "B" "18446744073709551614" ++ edge_text "B" "C" "1")%string.
Definition di_collapse : Z -> Z -> Z :=
  di_of [(0, 1, 18446744073709551614); (1, 2, 1)].

(** Five cities: A, B, C, D pairwise reachable in two ways, E joined to A only. *)
Definition input_twice : string :=
  (edge_text "A" "B" "1" ++ edge_text "A" "C" "1" ++ edge_text "B" "C" "1" ++
   edge_text "B" "D" "1" ++ edge_text "C" "D" "1" ++ edge_text "A" "E" "1")%string.
Definition di_twice : Z -> Z -> Z :=
  di_of [(0, 1, 1); (0, 2, 1); (1, 2, 1); (1, 3, 1); (2, 3, 1); (0, 4, 1)].

(** A-B: 5, A-C: 100, C-B: 100, B-D: 100: the one complete order is A, C, B, D;
    going to B first leads nowhere. *)
Definition input_detour : string :=
  (edge_text "A" "B" "5" ++ edge_text "A" "C" "100" ++
   edge_text "C" "B" "100" ++ edge_text "B" "D" "100")%string.
Definition di_detour : Z -> Z -> Z :=
  di_of [(0, 1, 5); (0, 2, 100); (2, 1, 100); (1, 3, 100)].

(** Zurich-Zurich: 3: one city. *)
Definition input_single : string := edge_text "Zurich" "Zurich" "3".

(** The names a0 .. a7, b0 .. b7, ... *)
Definition name_of (i : nat) : string :=
  String (ascii_of_nat (97 + i / 8))
    (String (ascii_of_nat (48 + i mod 8)) EmptyString).

Definition pair_line (k : nat) : string :=
  edge_text (name_of (2 * k)) (name_of (2 * k + 1)) "1".

(** 32 lines naming 64 distinct cities. *)
Definition input_64 : string := String.concat EmptyString (map pair_line (seq 0 32)).

(** One more line bringing a 65th name, i0. *)
Definition input_65 : string :=
  (input_64 ++ edge_text (name_of 0) (name_of 64) "1")%string.

Fixpoint repeat_char (c : ascii) (n : nat) : string :=
  match n with
  | O => EmptyString
  | S n' => String c (repeat_char c n')
  end.

(** A line whose first name has 512 characters. *)
Definition input_long_name : string :=
  edge_text (repeat_char "a"%char 512) "B" "1".

(** ** The recursion of tsp_dp without its tables

    [value] is the same recursion with the memo lookup and the stores left
    out: the pair (minimum candidate cost, first candidate attaining it) of a
    state.  [consistent] below ties the tables of the program to it. *)

Section Reference.

Variable city_count : Z.
Variable di : Z -> Z -> Z.

Fixpoint best_of (sub : Z -> Z -> Z) (current visited : Z) (nexts : list Z)
    (min_cost best_next_city : Z) : Z * Z :=
  match nexts with
  | [] => (min_cost, best_next_city)
  | next :: rest =>
      if candidate di current visited next
      then
        let cost := wrap64 (di current next + sub next (mark visited next)) in
        if cost <? min_cost
        then best_of sub current visited rest cost next
        else best_of sub current visited rest min_cost best_next_city
      else best_of sub current visited rest min_cost best_next_city
  end.

Fixpoint value (fuel : nat) (current visited : Z) : Z * Z :=
  match fuel with
  | O => (NO_PATH, -1)
  | S fuel' =>
      if visited =? full_mask city_count then (0, -1)
      else best_of (fun c v => fst (value fuel' c v)) current visited
             (upto city_count) NO_PATH (-1)
  end.

Definition cost_to_go (current visited : Z) : Z :=
  fst (value (enough_fuel city_count) current visited).

Definition choice (current visited : Z) : Z :=
  snd (value (enough_fuel city_count) current visited).

(** The cost the loop computes for candidate [next] of a state. *)
Definition candidate_cost (current visited next : Z) : Z :=
  wrap64 (di current next + cost_to_go next (mark visited next)).

(** How many of the cities [0 .. city_count) a mask leaves unvisited. *)
Definition unvisited (visited : Z) : nat :=
  List.length (filter (fun k => negb (Z.testbit visited k)) (upto city_count)).

(** *** Visiting orders *)

(** Every hop of the route [c, p1, p2, ...] is a real edge. *)
Fixpoint route_ok (c : Z) (p : list Z) : bool :=
  match p with
  | [] => true
  | n :: q => negb (di c n =? NO_PATH) && route_ok n q
  end.

(** The exact sum of the edge costs along the route. *)
Fixpoint route_cost (c : Z) (p : list Z) : Z :=
  match p with
  | [] => 0
  | n :: q => di c n + route_cost n q
  end.

(** [p] lists each city the mask leaves unvisited exactly once. *)
Definition completes (visited : Z) (p : list Z) : Prop :=
  NoDup p /\
  forall k, In k p <-> (0 <= k < city_count /\ Z.testbit visited k = false).

(** [p] is an ordering of the remaining cities [1 .. city_count). *)
Definition ordering (p : list Z) : Prop :=
  NoDup p /\ forall k, In k p <-> 1 <= k < city_count.

(** A complete visiting order from city 0 along real edges. *)
Definition valid_order (p : list Z) : Prop :=
  ordering p /\ route_ok 0 p = true.

(** The states the search calls [tsp_dp] on. *)
Inductive reached : Z -> Z -> Prop :=
| reached_root : reached 0 1
| reached_next (c m n : Z) :
    reached c m -> In n (upto city_count) -> candidate di c m n = true ->
    reached n (mark m n).

(** Every partial route the search follows can be extended by one more edge
    as long as cities remain. *)
Definition no_dead_end : Prop :=
  forall c m, reached c m -> m <> full_mask city_count ->
    exists n, In n (upto city_count) /\ candidate di c m n = true.

(** Every real edge costs at most [B], and [city_count] such edges stay below
    NO_PATH. *)
Definition costs_within (B : Z) : Prop :=
  (forall i j, di i j = NO_PATH \/ 0 <= di i j <= B) /\
  city_count * B < NO_PATH.

(** Any two distinct cities are joined by a real edge. *)
Definition complete_graph : Prop :=
  forall i j, 0 <= i < city_count -> 0 <= j < city_count -> i <> j ->
              di i j <> NO_PATH.

(** *** The tables agree with the recursion *)

Definition entry_done (s : tables) (c m : Z) : Prop :=
  next_city s c m = choice c m.

Record consistent (s : tables) : Prop := mkConsistent {
  (* an entry is untouched or holds the state's pair *)
  cons_entry : forall c m,
      (dp s c m = NO_PATH /\ next_city s c m = -1) \/
      (dp s c m = cost_to_go c m /\ next_city s c m = choice c m);
  (* the successor named by a stored entry has been settled too *)
  cons_succ : forall c m,
      dp s c m <> NO_PATH ->
      entry_done s (next_city s c m) (mark m (next_city s c m));
  (* a logged state with a cost below NO_PATH is stored *)
  cons_logged : forall c m,
      In (c, m) (evals s) -> cost_to_go c m <> NO_PATH -> dp s c m <> NO_PATH;
  (* and it is logged once *)
  cons_once : forall c m,
      cost_to_go c m <> NO_PATH ->
      (runs s c m <= 1)%nat
}.

(** Stored entries are kept. *)
Definition kept (s s' : tables) : Prop :=
  forall c m, dp s c m <> NO_PATH ->
    dp s' c m = dp s c m /\ next_city s' c m = next_city s c m.

(** A step of the search from mask [m] touches masks from [m] on only. *)
Definition framed (m : Z) (s s' : tables) : Prop :=
  forall c' m', m' < m ->
    dp s' c' m' = dp s c' m' /\ next_city s' c' m' = next_city s c' m'.

End Reference.

(** ** Notions for the further properties *)

(** The character occurs in the string. *)
Fixpoint has_char (c : ascii) (s : string) : bool :=
  match s with
  | EmptyString => false
  | String x rest => Ascii.eqb x c || has_char c rest
  end.

(** A name that the conversion [%511[^stop]] reads back whole: not empty, at
    most 511 characters, without [stop] and without NUL. *)
Definition field_ok (stop : ascii) (s : string) : bool :=
  negb (String.eqb s EmptyString) && (String.length s <=? 511)%nat &&
  negb (has_char stop s) && negb (has_char nul s).

Definition symmetric (di : Z -> Z -> Z) : Prop := forall i j, di i j = di j i.



(** The cities a list of emitted edges moves to, in order. *)
Definition targets (edges : list (Z * Z * Z)) : list Z := map snd edges.

(** The edges form one route from [c]: each starts where the one before
    ended, carries the cost [di] gives it, and moves along a real edge to a
    city below [city_count] that the mask so far leaves unvisited. *)
Fixpoint follows (city_count : Z) (di : Z -> Z -> Z) (c m : Z)
    (edges : list (Z * Z * Z)) : bool :=
  match edges with
  | [] => true
  | (a, d, b) :: rest =>
      (a =? c) && (d =? di c b) && (0 <=? b) && (b <? city_count) &&
      candidate di c m b && follows city_count di b (mark m b) rest
  end.

(** Where such a route ends: the last city and the mask with every target set. *)
Fixpoint walk_end (c m : Z) (edges : list (Z * Z * Z)) : Z * Z :=
  match edges with
  | [] => (c, m)
  | (_, _, b) :: rest => walk_end b (mark m b) rest
  end.

(** What [main] keeps true of the graph while it reads the file. *)
Record graph_ok (g : graph) : Prop := mkGraphOk {
  ok_distinct : NoDup (g_cities g);
  ok_count : g_city_count g <= MAX_CITIES;
  ok_symmetric : symmetric (g_di g);
  ok_outside : forall i j,
      ~ (0 <= i < g_city_count g /\ 0 <= j < g_city_count g) ->
      g_di g i j = NO_PATH;
  ok_range : forall i j, 0 <= g_di g i j <= NO_PATH
}.


(** * Properties *)

(** ** Masks *)

Lemma shl1_pow2 (k : Z) : 0 <= k < 64 -> shl1 k = 2 ^ k.
Proof.
  intros Hk. unfold shl1, wrap64. rewrite Z.shiftl_1_l.
  apply Z.mod_small. split.
  - apply Z.pow_nonneg. lia.
  - apply Z.pow_lt_mono_r; lia.
Qed.

Lemma full_mask_pow2 (n : Z) : 0 <= n < 64 -> full_mask n = 2 ^ n - 1.
Proof.
  intros Hn. unfold full_mask. rewrite shl1_pow2 by lia.
  unfold wrap64. apply Z.mod_small.
  assert (0 < 2 ^ n) by (apply Z.pow_pos_nonneg; lia).
  assert (2 ^ n < 2 ^ 64) by (apply Z.pow_lt_mono_r; lia).
  lia.
Qed.

Lemma land_pow2_eqb (m k : Z) :
  0 <= k -> (Z.land m (2 ^ k) =? 0) = negb (Z.testbit m k).
Proof.
  intros Hk. destruct (Z.testbit m k) eqn:E; simpl.
  - apply Z.eqb_neq. intro H0.
    assert (H : Z.testbit (Z.land m (2 ^ k)) k = true)
      by (rewrite Z.land_spec, E, Z.pow2_bits_true; auto).
    rewrite H0, Z.bits_0 in H. discriminate.
  - apply Z.eqb_eq. apply Z.bits_inj'. intros i Hi.
    rewrite Z.land_spec, Z.bits_0, Z.pow2_bits_eqb by lia.
    destruct (Z.eqb_spec k i) as [->|]; [rewrite E|]; auto using andb_false_r.
Qed.

Lemma mark_testbit (m k i : Z) :
  0 <= k < 64 -> Z.testbit (mark m k) i = Z.testbit m i || (k =? i).
Proof.
  intros Hk. unfold mark. rewrite shl1_pow2 by lia.
  rewrite Z.lor_spec, Z.pow2_bits_eqb by lia. reflexivity.
Qed.

Lemma mark_add (m k : Z) :
  0 <= k < 64 -> Z.testbit m k = false -> mark m k = m + 2 ^ k.
Proof.
  intros Hk Hb. unfold mark. rewrite shl1_pow2 by lia.
  assert (H0 : Z.land m (2 ^ k) = 0).
  { apply Z.eqb_eq. rewrite land_pow2_eqb, Hb by lia. reflexivity. }
  rewrite Z.add_nocarry_lxor, Z.lxor_lor by assumption. reflexivity.
Qed.

Lemma mark_gt (m k : Z) :
  0 <= k < 64 -> Z.testbit m k = false -> m < mark m k.
Proof.
  intros Hk Hb. rewrite mark_add by assumption.
  assert (0 < 2 ^ k) by (apply Z.pow_pos_nonneg; lia). lia.
Qed.

Lemma mark_bound (n m k : Z) :
  0 <= k < n -> n < 64 -> Z.testbit m k = false ->
  0 <= m < 2 ^ n -> 0 <= mark m k < 2 ^ n.
Proof.
  intros Hk Hn Hb Hm. split.
  - pose proof (mark_gt m k ltac:(lia) Hb). lia.
  - unfold mark. rewrite shl1_pow2 by lia.
    assert (H0 : Z.land m (2 ^ k) = 0).
    { apply Z.eqb_eq. rewrite land_pow2_eqb, Hb by lia. reflexivity. }
    rewrite <- Z.lxor_lor, <- Z.add_nocarry_lxor by assumption.
    apply Z.add_nocarry_lt_pow2; try assumption; try lia.
    apply Z.pow_lt_mono_r; lia.
Qed.

Lemma in_upto (n k : Z) : In k (upto n) <-> 0 <= k < n.
Proof.
  unfold upto. rewrite in_map_iff. split.
  - intros (i & <- & Hi). apply in_seq in Hi. lia.
  - intros Hk. exists (Z.to_nat k). split; [lia|]. apply in_seq. lia.
Qed.

Lemma upto_length (n : Z) : List.length (upto n) = Z.to_nat n.
Proof. unfold upto. rewrite length_map, length_seq. reflexivity. Qed.

(** A mask below [2^n] with every bit under [n] set is the full mask. *)
Lemma all_set_full (n m : Z) :
  0 <= n < 64 -> 0 <= m < 2 ^ n ->
  (forall k, 0 <= k < n -> Z.testbit m k = true) -> m = full_mask n.
Proof.
  intros Hn Hm Hall. rewrite full_mask_pow2 by assumption.
  replace (2 ^ n - 1) with (Z.ones n) by (rewrite Z.ones_equiv; lia).
  symmetry. apply Z.bits_inj'. intros i Hi.
  destruct (Z_lt_le_dec i n).
  - rewrite Z.ones_spec_low, Hall by lia. reflexivity.
  - rewrite Z.ones_spec_high by lia.
    rewrite <- (Z.mod_small m (2 ^ n)) by assumption.
    rewrite Z.mod_pow2_bits_high by lia. reflexivity.
Qed.

Lemma full_mask_testbit (n k : Z) :
  0 <= n < 64 -> 0 <= k < n -> Z.testbit (full_mask n) k = true.
Proof.
  intros Hn Hk. rewrite full_mask_pow2 by assumption.
  replace (2 ^ n - 1) with (Z.ones n) by (rewrite Z.ones_equiv; lia).
  apply Z.ones_spec_low. lia.
Qed.

(** ** Counting with filter *)

Lemma filter_length_mono {A} (p q : A -> bool) (l : list A) :
  (forall x, In x l -> q x = true -> p x = true) ->
  (List.length (filter q l) <= List.length (filter p l))%nat.
Proof.
  induction l as [|a l IH]; intros Himp; simpl; [lia|].
  assert (IH' := IH (fun x Hx => Himp x (or_intror Hx))).
  destruct (q a) eqn:Eq.
  - rewrite (Himp a (or_introl eq_refl) Eq). simpl. lia.
  - destruct (p a); simpl; lia.
Qed.

Lemma filter_length_strict {A} (p q : A -> bool) (l : list A) (a : A) :
  (forall x, In x l -> q x = true -> p x = true) ->
  In a l -> p a = true -> q a = false ->
  (List.length (filter q l) < List.length (filter p l))%nat.
Proof.
  induction l as [|b l IH]; intros Himp Hin Hp Hq; simpl; [contradiction|].
  assert (Himp' : forall x, In x l -> q x = true -> p x = true)
    by (intros x Hx; apply Himp; right; exact Hx).
  destruct Hin as [->|Hin].
  - rewrite Hp, Hq. simpl.
    pose proof (filter_length_mono p q l Himp'). lia.
  - specialize (IH Himp' Hin Hp Hq).
    destruct (q b) eqn:Eq.
    + rewrite (Himp b (or_introl eq_refl) Eq). simpl. lia.
    + destruct (p b); simpl; lia.
Qed.

(** ** The recursion without tables *)

Section Search.

Variable city_count : Z.
Variable di : Z -> Z -> Z.
Hypothesis Hcount : 0 <= city_count < 64.

#[local] Abbreviation candidate := (candidate di).
#[local] Abbreviation best_of := (best_of di).
#[local] Abbreviation value := (value city_count di).
#[local] Abbreviation cost_to_go := (cost_to_go city_count di).
#[local] Abbreviation choice := (choice city_count di).
#[local] Abbreviation candidate_cost := (candidate_cost city_count di).
#[local] Abbreviation unvisited := (unvisited city_count).
#[local] Abbreviation full := (full_mask city_count).

Lemma candidate_spec (c m n : Z) :
  In n (upto city_count) ->
  candidate c m n = true <-> Z.testbit m n = false /\ di c n <> NO_PATH.
Proof.
  intros Hin. apply in_upto in Hin. unfold candidate.
  rewrite shl1_pow2, land_pow2_eqb by lia.
  rewrite andb_true_iff, !negb_true_iff, Z.eqb_neq. reflexivity.
Qed.

Lemma unvisited_le (m : Z) : (unvisited m <= Z.to_nat city_count)%nat.
Proof.
  unfold unvisited. rewrite <- upto_length. apply List.filter_length_le.
Qed.

Lemma unvisited_mark (m n : Z) :
  In n (upto city_count) -> Z.testbit m n = false ->
  (unvisited (mark m n) < unvisited m)%nat.
Proof.
  intros Hin Hb. pose proof Hin as Hr. apply in_upto in Hr.
  unfold unvisited. apply filter_length_strict with (a := n); auto.
  - intros x _. rewrite mark_testbit by lia.
    rewrite !negb_true_iff. intros H. apply orb_false_elim in H. tauto.
  - rewrite Hb. reflexivity.
  - rewrite mark_testbit, Z.eqb_refl, orb_true_r by lia. reflexivity.
Qed.

Lemma best_of_ext (sub1 sub2 : Z -> Z -> Z) (c m : Z) (nexts : list Z) :
  (forall n, In n nexts -> candidate c m n = true ->
             sub1 n (mark m n) = sub2 n (mark m n)) ->
  forall mc b, best_of sub1 c m nexts mc b = best_of sub2 c m nexts mc b.
Proof.
  induction nexts as [|n rest IH]; intros Hsub mc b; simpl; [reflexivity|].
  assert (IH' := IH (fun x Hx => Hsub x (or_intror Hx))).
  destruct (candidate c m n) eqn:Ec; [|apply IH'].
  rewrite (Hsub n (or_introl eq_refl) Ec).
  destruct (_ <? mc); apply IH'.
Qed.

Lemma value_fuel (f1 : nat) :
  forall f2 c m, (unvisited m < f1)%nat -> (unvisited m < f2)%nat ->
                 value f1 c m = value f2 c m.
Proof.
  induction f1 as [|f1 IH]; intros f2 c m H1 H2; [lia|].
  destruct f2 as [|f2]; [lia|]. simpl.
  destruct (m =? full); [reflexivity|].
  apply best_of_ext. intros n Hin Hc.
  apply candidate_spec in Hc; [|assumption].
  pose proof (unvisited_mark m n Hin (proj1 Hc)).
  rewrite (IH f2); [reflexivity | lia | lia].
Qed.

(** The defining equation of the pair of a state. *)
Lemma value_eq (c m : Z) :
  (cost_to_go c m, choice c m) =
  if m =? full then (0, -1)
  else best_of cost_to_go c m (upto city_count) NO_PATH (-1).
Proof.
  unfold cost_to_go, choice.
  rewrite <- surjective_pairing. unfold enough_fuel. simpl.
  destruct (m =? full); [reflexivity|].
  apply best_of_ext. intros n Hin Hc.
  apply candidate_spec in Hc; [|assumption].
  pose proof (unvisited_mark m n Hin (proj1 Hc)).
  pose proof (unvisited_le m).
  rewrite (value_fuel (Z.to_nat city_count) (S (Z.to_nat city_count))); [reflexivity|lia|].
  pose proof (unvisited_le (mark m n)). lia.
Qed.

Lemma value_full (c : Z) : cost_to_go c full = 0 /\ choice c full = -1.
Proof.
  pose proof (value_eq c full) as H. rewrite Z.eqb_refl in H.
  inversion H. auto.
Qed.

(** What the loop leaves in (min_cost, best_next_city) after the indices
    [a .. a + k): either nothing beat the incumbent, or the winner is the first
    index of the range whose cost is the least one. *)
Lemma best_of_seq (sub : Z -> Z -> Z) (c m : Z) (k : nat) :
  forall (a : nat) (mc b mc' b' : Z),
    best_of sub c m (map Z.of_nat (seq a k)) mc b = (mc', b') ->
    (mc' = mc /\ b' = b /\
     forall n, Z.of_nat a <= n < Z.of_nat a + Z.of_nat k ->
               candidate c m n = true ->
               mc <= wrap64 (di c n + sub n (mark m n))) \/
    (Z.of_nat a <= b' < Z.of_nat a + Z.of_nat k /\
     candidate c m b' = true /\
     wrap64 (di c b' + sub b' (mark m b')) = mc' /\ mc' < mc /\
     (forall n, Z.of_nat a <= n < b' -> candidate c m n = true ->
                mc' < wrap64 (di c n + sub n (mark m n))) /\
     (forall n, b' < n < Z.of_nat a + Z.of_nat k -> candidate c m n = true ->
                mc' <= wrap64 (di c n + sub n (mark m n)))).
Proof.
  induction k as [|k IH]; intros a mc b mc' b' Hr; simpl in Hr.
  - inversion Hr; subst. left. repeat split; auto. intros n Hn. lia.
  - assert (Hhead : forall n, Z.of_nat a <= n < Z.of_nat a + Z.of_nat (S k) ->
                    n = Z.of_nat a \/ Z.of_nat (S a) <= n < Z.of_nat (S a) + Z.of_nat k)
      by (intros; lia).
    destruct (candidate c m (Z.of_nat a)) eqn:Ec.
    + destruct (Z.ltb_spec (wrap64 (di c (Z.of_nat a) + sub (Z.of_nat a) (mark m (Z.of_nat a)))) mc)
        as [Hlt|Hge];
        apply IH in Hr;
        destruct Hr as [(E1 & E2 & Hall)|(Hr & Hc & He & Hl & Hbefore & Hafter)].
      * right. subst mc' b'. repeat split; auto; try lia.
        intros n Hn Hcn. apply Hall; auto. lia.
      * right. repeat split; auto; try lia.
        -- intros n Hn Hcn.
           destruct (Z.eq_dec n (Z.of_nat a)) as [->|Hne]; [lia|].
           apply Hbefore; auto. lia.
        -- intros n Hn Hcn. apply Hafter; auto. lia.
      * left. repeat split; auto. intros n Hn Hcn.
        destruct (Hhead n Hn) as [->|Hn']; [exact Hge|auto].
      * right. repeat split; auto; try lia.
        -- intros n Hn Hcn.
           destruct (Z.eq_dec n (Z.of_nat a)) as [->|Hne]; [lia|].
           apply Hbefore; auto. lia.
        -- intros n Hn Hcn. apply Hafter; auto. lia.
    + apply IH in Hr.
      destruct Hr as [(E1 & E2 & Hall)|(Hr & Hc & He & Hl & Hbefore & Hafter)].
      * left. repeat split; auto. intros n Hn Hcn.
        destruct (Hhead n Hn) as [->|Hn']; [congruence|auto].
      * right. repeat split; auto; try lia.
        -- intros n Hn Hcn.
           destruct (Z.eq_dec n (Z.of_nat a)) as [->|Hne]; [congruence|].
           apply Hbefore; auto. lia.
        -- intros n Hn Hcn. apply Hafter; auto. lia.
Qed.

Lemma wrap64_range (z : Z) : 0 <= wrap64 z < 2 ^ 64.
Proof. unfold wrap64. apply Z.mod_pos_bound. reflexivity. Qed.

(** The pair of a state that is not complete: no candidate costs less than
    NO_PATH and no city is chosen, or the chosen city is the candidate of
    least index among those of least cost. *)
Lemma choice_spec (c m : Z) :
  m <> full ->
  (cost_to_go c m = NO_PATH /\ choice c m = -1 /\
   forall n, 0 <= n < city_count -> candidate c m n = true ->
             candidate_cost c m n = NO_PATH) \/
  (0 <= choice c m < city_count /\ candidate c m (choice c m) = true /\
   candidate_cost c m (choice c m) = cost_to_go c m /\
   cost_to_go c m < NO_PATH /\
   (forall n, 0 <= n < choice c m -> candidate c m n = true ->
              cost_to_go c m < candidate_cost c m n) /\
   (forall n, choice c m < n < city_count -> candidate c m n = true ->
              cost_to_go c m <= candidate_cost c m n)).
Proof.
  intros Hm. pose proof (value_eq c m) as E.
  apply Z.eqb_neq in Hm. rewrite Hm in E. unfold upto in E.
  pose proof (best_of_seq cost_to_go c m (Z.to_nat city_count) 0 NO_PATH (-1)
                _ _ (eq_sym E)) as H.
  change (Z.of_nat 0) with 0 in H. rewrite Z2Nat.id in H by lia.
  destruct H as [(E1 & E2 & Hall)|H]; [left|right; exact H].
  repeat split; auto. intros n Hn Hc.
  pose proof (Hall n ltac:(lia) Hc) as Hle.
  pose proof (wrap64_range (di c n + cost_to_go n (mark m n))) as Hr.
  unfold candidate_cost, NO_PATH in *. lia.
Qed.

Lemma cost_to_go_range (c m : Z) : 0 <= cost_to_go c m <= NO_PATH.
Proof.
  destruct (Z.eq_dec m full) as [->|Hm].
  - rewrite (proj1 (value_full c)). unfold NO_PATH. lia.
  - destruct (choice_spec c m Hm) as [(E & _)|(_ & _ & E & Hlt & _)].
    + rewrite E. unfold NO_PATH. lia.
    + rewrite <- E in *. unfold candidate_cost in *.
      pose proof (wrap64_range (di c (choice c m) +
                                cost_to_go (choice c m) (mark m (choice c m)))).
      lia.
Qed.

(** No city is chosen exactly when the cost is NO_PATH. *)
Lemma choice_none (c m : Z) :
  m <> full -> (choice c m = -1 <-> cost_to_go c m = NO_PATH).
Proof.
  intros Hm. destruct (choice_spec c m Hm) as [(E1 & E2 & _)|(Hr & _ & _ & Hlt & _)].
  - tauto.
  - split; intros; lia.
Qed.

(** *** Which entries a call can change *)

Lemma kept_refl (s : tables) : kept s s.
Proof. intros c m _. auto. Qed.

Lemma kept_trans (s1 s2 s3 : tables) : kept s1 s2 -> kept s2 s3 -> kept s1 s3.
Proof.
  intros H12 H23 c m H. destruct (H12 c m H) as [E1 E2].
  destruct (H23 c m) as [E3 E4]; [congruence|]. split; congruence.
Qed.

Lemma framed_refl (m : Z) (s : tables) : framed m s s.
Proof. intros c' m' _. auto. Qed.

Lemma framed_trans (m : Z) (s1 s2 s3 : tables) :
  framed m s1 s2 -> framed m s2 s3 -> framed m s1 s3.
Proof.
  intros H12 H23 c' m' H. destruct (H12 c' m' H), (H23 c' m' H).
  split; congruence.
Qed.

Lemma framed_weaken (m m0 : Z) (s s' : tables) :
  m0 <= m -> framed m s s' -> framed m0 s s'.
Proof. intros Hle H c' m' Hlt. apply H. lia. Qed.

Lemma upd_same (t : Z -> Z -> Z) (i j v : Z) : upd t i j v i j = v.
Proof. unfold upd. rewrite !Z.eqb_refl. reflexivity. Qed.

Lemma upd_other (t : Z -> Z -> Z) (i j v i' j' : Z) :
  i' <> i \/ j' <> j -> upd t i j v i' j' = t i' j'.
Proof.
  intros H. unfold upd.
  destruct (Z.eqb_spec i' i), (Z.eqb_spec j' j); simpl; auto; lia.
Qed.

Lemma scan_frame (rec : Z -> Z -> tables -> res (Z * tables)) (c m : Z) :
  (forall n m' s r s1, m < m' -> rec n m' s = Ok (r, s1) ->
                       kept s s1 /\ framed m' s s1) ->
  forall nexts mc b s mc' b' s',
    (forall n, In n nexts -> In n (upto city_count)) ->
    scan di rec c m nexts mc b s = Ok (mc', b', s') ->
    kept s s' /\ framed (m + 1) s s'.
Proof.
  intros Hrec. induction nexts as [|n rest IH]; intros mc b s mc' b' s' Hin Hs;
    simpl in Hs.
  - inversion Hs; subst. split; [apply kept_refl | apply framed_refl].
  - assert (Hin' : forall x, In x rest -> In x (upto city_count))
      by (intros; apply Hin; right; assumption).
    destruct (candidate c m n) eqn:Ec; [|eapply IH; eauto].
    apply candidate_spec in Ec; [|apply Hin; left; reflexivity].
    assert (Hn : 0 <= n < 64) by (specialize (Hin n (or_introl eq_refl));
                                  apply in_upto in Hin; lia).
    pose proof (mark_gt m n Hn (proj1 Ec)) as Hgt.
    destruct (rec n (mark m n) s) as [[r s1]|] eqn:Er; simpl in Hs; [|discriminate].
    destruct (Hrec _ _ _ _ _ Hgt Er) as [K1 F1].
    assert (kept s1 s' /\ framed (m + 1) s1 s') as [K2 F2]
      by (destruct (_ <? mc); eapply IH; eauto).
    split; [eapply kept_trans; eauto|].
    eapply framed_trans; [|exact F2]. eapply framed_weaken; [|exact F1]. lia.
Qed.

Lemma tsp_dp_frame (fuel : nat) :
  forall c m s r s',
    tsp_dp city_count di fuel c m s = Ok (r, s') ->
    kept s s' /\ framed m s s'.
Proof.
  induction fuel as [|fuel IH]; intros c m s r s' H; simpl in H; [discriminate|].
  destruct (64 <=? city_count); [discriminate|].
  destruct (m =? full).
  { inversion H; subst. split; [apply kept_refl | apply framed_refl]. }
  destruct (Z.eqb_spec (dp s c m) NO_PATH) as [Edp|Edp]; simpl in H.
  2:{ inversion H; subst. split; [apply kept_refl | apply framed_refl]. }
  destruct (scan di (tsp_dp city_count di fuel) c m (upto city_count) NO_PATH (-1) s)
    as [[[mc b] s1]|] eqn:Es; simpl in H; [|discriminate].
  inversion H; subst. clear H.
  apply scan_frame in Es; [|intros; eapply IH; eauto|auto].
  destruct Es as [K F]. split.
  - intros c' m' Hne. destruct (K c' m' Hne) as [E1 E2].
    simpl. rewrite !upd_other; [auto| |];
      (destruct (Z.eq_dec c' c), (Z.eq_dec m' m); subst; auto; congruence).
  - intros c' m' Hlt. destruct (F c' m' ltac:(lia)) as [E1 E2].
    simpl. rewrite !upd_other by lia. auto.
Qed.

(** *** How often the candidate loop of a state runs *)

Lemma runs_store (s : tables) (c m v b c0 m0 : Z) :
  runs (store s c m v b) c0 m0 =
  if (c =? c0) && (m =? m0) then S (runs s c0 m0) else runs s c0 m0.
Proof.
  unfold runs. simpl. destruct ((c =? c0) && (m =? m0)); reflexivity.
Qed.

(** The calls made from the loop of mask [m] log states of greater masks. *)
Lemma scan_runs (rec : Z -> Z -> tables -> res (Z * tables)) (c m : Z) :
  (forall n m' s r s1, m < m' -> rec n m' s = Ok (r, s1) ->
     forall c0 m0, m0 < m' -> runs s1 c0 m0 = runs s c0 m0) ->
  forall nexts mc b s mc' b' s',
    (forall n, In n nexts -> In n (upto city_count)) ->
    scan di rec c m nexts mc b s = Ok (mc', b', s') ->
    forall c0 m0, m0 <= m -> runs s' c0 m0 = runs s c0 m0.
Proof.
  intros Hrec. induction nexts as [|n rest IH];
    intros mc b s mc' b' s' Hin Hs c0 m0 Hle; simpl in Hs.
  - inversion Hs; subst. reflexivity.
  - assert (Hin' : forall x, In x rest -> In x (upto city_count))
      by (intros; apply Hin; right; assumption).
    destruct (candidate c m n) eqn:Ec; [|eapply IH; eauto].
    apply candidate_spec in Ec; [|apply Hin; left; reflexivity].
    assert (Hn : 0 <= n < 64) by (specialize (Hin n (or_introl eq_refl));
                                  apply in_upto in Hin; lia).
    pose proof (mark_gt m n Hn (proj1 Ec)) as Hgt.
    destruct (rec n (mark m n) s) as [[r s1]|] eqn:Er; simpl in Hs; [|discriminate].
    rewrite <- (Hrec _ _ _ _ _ Hgt Er c0 m0 ltac:(lia)).
    destruct (_ <? mc); eapply IH; eauto.
Qed.

Lemma tsp_dp_runs (fuel : nat) :
  forall c m s r s',
    tsp_dp city_count di fuel c m s = Ok (r, s') ->
    forall c0 m0, m0 < m -> runs s' c0 m0 = runs s c0 m0.
Proof.
  induction fuel as [|fuel IH]; intros c m s r s' H c0 m0 Hlt; simpl in H;
    [discriminate|].
  destruct (64 <=? city_count); [discriminate|].
  destruct (m =? full); [inversion H; subst; reflexivity|].
  destruct (Z.eqb_spec (dp s c m) NO_PATH) as [Edp|Edp]; simpl in H;
    [|inversion H; subst; reflexivity].
  destruct (scan di (tsp_dp city_count di fuel) c m (upto city_count) NO_PATH (-1) s)
    as [[[mc b] s1]|] eqn:Es; simpl in H; [|discriminate].
  inversion H; subst. clear H. rewrite runs_store.
  destruct (Z.eqb_spec m m0); [lia|]. rewrite andb_false_r.
  eapply scan_runs; [|intros n0 H0; exact H0|exact Es|lia].
  intros n0 m' s0 r0 s2 _ E. eapply IH. exact E.
Qed.

(** A call for a state that is not complete and has NO_PATH in its entry runs
    the loop of the state once more. *)
Lemma tsp_dp_runs_again (fuel : nat) (c m : Z) (s : tables) (r : Z) (s' : tables) :
  tsp_dp city_count di fuel c m s = Ok (r, s') ->
  m <> full -> dp s c m = NO_PATH ->
  runs s' c m = S (runs s c m) /\ dp s' c m = r.
Proof.
  intros H Hm Hdp. destruct fuel as [|fuel]; simpl in H; [discriminate|].
  destruct (64 <=? city_count); [discriminate|].
  destruct (Z.eqb_spec m full); [contradiction|].
  destruct (Z.eqb_spec (dp s c m) NO_PATH); [|contradiction]. simpl in H.
  destruct (scan di (tsp_dp city_count di fuel) c m (upto city_count) NO_PATH (-1) s)
    as [[[mc b] s1]|] eqn:Es; simpl in H; [|discriminate].
  inversion H; subst. clear H. rewrite runs_store, !Z.eqb_refl. cbn [andb].
  split; [|simpl; apply upd_same]. f_equal.
  eapply scan_runs; [|intros n0 H0; exact H0|exact Es|lia].
  intros n0 m' s0 r0 s2 _ E. eapply tsp_dp_runs. exact E.
Qed.

(** *** The tables stay consistent with the recursion *)

#[local] Abbreviation consistent := (consistent city_count di).
#[local] Abbreviation entry_done := (entry_done city_count di).

Lemma consistent_init : consistent init_tables.
Proof.
  constructor; simpl; auto; try contradiction; intros c m H; congruence.
Qed.

Lemma choice_some_cost (c m : Z) : choice c m <> -1 -> cost_to_go c m <> NO_PATH.
Proof.
  intros Hc. destruct (Z.eq_dec m full) as [->|Hm].
  - destruct (value_full c). congruence.
  - rewrite <- choice_none by assumption. exact Hc.
Qed.

Lemma entry_done_kept (s s' : tables) (c m : Z) :
  consistent s -> consistent s' -> kept s s' ->
  entry_done s c m -> entry_done s' c m.
Proof.
  intros Cs Cs' K Hd. unfold entry_done in *.
  destruct (Z.eq_dec (choice c m) (-1)) as [E|E].
  - destruct (cons_entry _ _ _ Cs' c m) as [[_ H]|[_ H]]; congruence.
  - destruct (cons_entry _ _ _ Cs c m) as [[_ H]|[H _]]; [congruence|].
    destruct (K c m) as [_ H2]; [|congruence].
    rewrite H. apply choice_some_cost. exact E.
Qed.

Lemma entry_done_store (s : tables) (c m v x y : Z) :
  entry_done s x y -> entry_done (store s c m v (choice c m)) x y.
Proof.
  unfold entry_done. simpl. unfold upd. intros H.
  destruct (Z.eqb_spec x c), (Z.eqb_spec y m); simpl; subst; auto.
Qed.

Lemma runs_positive (s : tables) (c m : Z) :
  (0 < runs s c m)%nat -> In (c, m) (evals s).
Proof.
  unfold runs. induction (evals s) as [|[c' m'] l IH]; simpl; [lia|].
  destruct (Z.eqb_spec c' c), (Z.eqb_spec m' m); simpl; subst; auto.
Qed.

Lemma store_consistent (s : tables) (c m : Z) :
  consistent s -> m <> full -> dp s c m = NO_PATH ->
  (choice c m = -1 \/ entry_done s (choice c m) (mark m (choice c m))) ->
  consistent (store s c m (cost_to_go c m) (choice c m)).
Proof.
  intros Cs Hm Hdp Hbest. constructor.
  - intros c' m'. simpl. unfold upd.
    destruct (Z.eqb_spec c' c), (Z.eqb_spec m' m); simpl; subst; auto;
      apply (cons_entry _ _ _ Cs).
  - intros c' m' Hne. revert Hne. simpl. unfold upd at 1 2 3.
    destruct ((c' =? c) && (m' =? m)) eqn:E; intros Hne.
    + apply andb_true_iff in E. destruct E as [E1 E2].
      apply Z.eqb_eq in E1, E2. subst c' m'.
      destruct Hbest as [Hb|Hb].
      * exfalso. apply Hne. apply choice_none; assumption.
      * apply entry_done_store. exact Hb.
    + apply entry_done_store. apply (cons_succ _ _ _ Cs). exact Hne.
  - intros c' m' Hin Hc. simpl. unfold upd.
    destruct (Z.eqb_spec c' c), (Z.eqb_spec m' m); simpl; subst; auto;
      (simpl in Hin; destruct Hin as [Hin|Hin];
       [inversion Hin; subst; congruence | apply (cons_logged _ _ _ Cs); auto]).
  - intros c' m' Hc. unfold runs. simpl.
    destruct (Z.eqb_spec c c'), (Z.eqb_spec m m'); simpl; subst;
      try apply (cons_once _ _ _ Cs); auto.
    destruct (runs s c' m') eqn:Er; [unfold runs in Er; lia|].
    exfalso. apply (cons_logged _ _ _ Cs c' m'); auto.
    apply runs_positive. lia.
Qed.

Lemma scan_refines (f : nat) (c m : Z) :
  (forall c' m' s, (unvisited m' < f)%nat -> consistent s ->
     exists s', tsp_dp city_count di f c' m' s = Ok (cost_to_go c' m', s') /\
                consistent s' /\ entry_done s' c' m') ->
  (unvisited m <= f)%nat ->
  forall nexts mc b s,
    (forall n, In n nexts -> In n (upto city_count)) ->
    consistent s ->
    (b = -1 \/ entry_done s b (mark m b)) ->
    exists s',
      scan di (tsp_dp city_count di f) c m nexts mc b s =
        Ok (fst (best_of cost_to_go c m nexts mc b),
            snd (best_of cost_to_go c m nexts mc b), s') /\
      consistent s' /\
      (snd (best_of cost_to_go c m nexts mc b) = -1 \/
       entry_done s' (snd (best_of cost_to_go c m nexts mc b))
                     (mark m (snd (best_of cost_to_go c m nexts mc b)))).
Proof.
  intros Hrec Hf. induction nexts as [|n rest IH]; intros mc b s Hin Cs Hb; simpl.
  - exists s. auto.
  - assert (Hin' : forall x, In x rest -> In x (upto city_count))
      by (intros; apply Hin; right; assumption).
    destruct (candidate c m n) eqn:Ec; [|apply IH; auto].
    apply candidate_spec in Ec; [|apply Hin; left; reflexivity].
    pose proof (unvisited_mark m n (Hin n (or_introl eq_refl)) (proj1 Ec)) as Hlt.
    destruct (Hrec n (mark m n) s ltac:(lia) Cs) as (s1 & E1 & Cs1 & D1).
    rewrite E1. simpl.
    destruct (tsp_dp_frame _ _ _ _ _ _ E1) as [K1 _].
    destruct (_ <? mc).
    + apply IH; [exact Hin' | exact Cs1 | right; exact D1].
    + apply IH; [exact Hin' | exact Cs1 |].
      destruct Hb as [Hb|Hb]; [left; exact Hb|right].
      exact (entry_done_kept s s1 b (mark m b) Cs Cs1 K1 Hb).
Qed.

(** The call returns the cost of the state whatever the tables hold, as long
    as they are consistent, and leaves them consistent. *)
Lemma tsp_dp_refines (fuel : nat) :
  forall c m s, (unvisited m < fuel)%nat -> consistent s ->
    exists s', tsp_dp city_count di fuel c m s = Ok (cost_to_go c m, s') /\
               consistent s' /\ entry_done s' c m.
Proof.
  induction fuel as [|fuel IH]; intros c m s Hf Cs; [lia|]. simpl.
  destruct (Z.leb_spec 64 city_count); [lia|].
  destruct (Z.eqb_spec m full) as [->|Hm].
  { destruct (value_full c) as [E1 E2]. rewrite E1. exists s.
    split; [reflexivity|]. split; [exact Cs|].
    unfold entry_done.
    destruct (cons_entry _ _ _ Cs c full) as [[_ Hn]|[_ Hn]]; congruence. }
  destruct (Z.eqb_spec (dp s c m) NO_PATH) as [Edp|Edp]; simpl.
  2:{ destruct (cons_entry _ _ _ Cs c m) as [[Hd _]|[Hd Hn]]; [congruence|].
      rewrite Hd. exists s. split; [reflexivity|]. split; [exact Cs|exact Hn]. }
  destruct (scan_refines fuel c m IH ltac:(lia) (upto city_count) NO_PATH (-1) s)
    as (s1 & Es & Cs1 & Hb); auto.
  rewrite Es. simpl.
  pose proof (value_eq c m) as Ev.
  destruct (Z.eqb_spec m full) as [|_]; [contradiction|].
  rewrite <- Ev in *. simpl fst in *. simpl snd in *.
  eexists. split; [reflexivity|].
  apply scan_frame in Es; [|intros; eapply tsp_dp_frame; eauto|auto].
  destruct Es as [_ F]. destruct (F c m ltac:(lia)) as [Fd _].
  split.
  - apply store_consistent; auto. congruence.
  - unfold entry_done. simpl. apply upd_same.
Qed.

(** *** Visiting orders and the cost of a state *)

#[local] Abbreviation completes := (completes city_count).
#[local] Abbreviation route_ok := (route_ok di).
#[local] Abbreviation route_cost := (route_cost di).
#[local] Abbreviation reached := (reached city_count di).
#[local] Abbreviation costs_within := (costs_within city_count di).

Lemma completes_cons (m n : Z) (q : list Z) :
  0 <= n < city_count -> Z.testbit m n = false ->
  (completes m (n :: q) <-> completes (mark m n) q).
Proof.
  intros Hn Hb. unfold completes. split; intros [Hnd Hin].
  - inversion Hnd as [|? ? Hnotin Hnd']; subst. split; [exact Hnd'|].
    intros k. rewrite mark_testbit by lia. split.
    + intros Hk. destruct (proj1 (Hin k) (or_intror Hk)) as [Hr Hbk].
      split; [exact Hr|]. rewrite Hbk. simpl.
      apply Z.eqb_neq. intros ->. contradiction.
    + intros [Hr Hbk]. apply orb_false_elim in Hbk. destruct Hbk as [Hbk Hne].
      apply Z.eqb_neq in Hne.
      destruct (proj2 (Hin k) (conj Hr Hbk)) as [->|]; [congruence|assumption].
  - assert (Hnotin : ~ In n q).
    { intros Hq. apply Hin in Hq. destruct Hq as [_ Hq].
      rewrite mark_testbit, Z.eqb_refl, orb_true_r in Hq by lia. discriminate. }
    split; [constructor; assumption|].
    intros k. simpl. rewrite Hin, mark_testbit by lia. split.
    + intros [<-|[Hr Hbk]]; [auto|].
      apply orb_false_elim in Hbk. tauto.
    + intros [Hr Hbk]. destruct (Z.eq_dec n k) as [->|Hne]; [auto|right].
      split; [exact Hr|]. rewrite Hbk. simpl. apply Z.eqb_neq. exact Hne.
Qed.

Lemma completes_length (m : Z) (p : list Z) :
  completes m p -> Z.of_nat (List.length p) <= city_count.
Proof.
  intros [Hnd Hin].
  assert (H : (List.length p <= List.length (upto city_count))%nat).
  { apply NoDup_incl_length; [exact Hnd|].
    intros k Hk. apply in_upto. apply Hin in Hk. tauto. }
  rewrite upto_length in H. lia.
Qed.

Lemma completes_full : completes full [].
Proof.
  split; [constructor|]. intros k. split; [contradiction|].
  intros [Hr Hb]. rewrite full_mask_testbit in Hb by lia. discriminate.
Qed.

Lemma completes_nil (m : Z) : 0 <= m < 2 ^ city_count -> completes m [] -> m = full.
Proof.
  intros Hm [_ Hin]. apply all_set_full; auto.
  intros k Hk. destruct (Z.testbit m k) eqn:E; [reflexivity|].
  exfalso. apply (proj2 (Hin k)). auto.
Qed.

Lemma not_full_unset (m n : Z) :
  0 <= n < city_count -> Z.testbit m n = false -> m <> full.
Proof.
  intros Hn Hb ->. rewrite full_mask_testbit in Hb by lia. discriminate.
Qed.


(** The loop never returns more than the cost of a candidate. *)
Lemma cost_to_go_le_candidate (c m n : Z) :
  0 <= n < city_count -> candidate c m n = true ->
  cost_to_go c m <= candidate_cost c m n.
Proof.
  intros Hn Hc.
  assert (Hm : m <> full).
  { apply candidate_spec in Hc; [|apply in_upto; assumption].
    eapply not_full_unset; [exact Hn | tauto]. }
  destruct (choice_spec c m Hm) as [(E & _ & Hall)|(Hr & _ & Eb & _ & Hbefore & Hafter)].
  - rewrite E, (Hall n Hn Hc). lia.
  - destruct (Z.lt_trichotomy n (choice c m)) as [H|[H|H]].
    + specialize (Hbefore n ltac:(lia) Hc). lia.
    + subst n. lia.
    + apply Hafter; [lia|exact Hc].
Qed.

(** With bounded costs the value of a state is at most the cost of any way
    of completing the route from it. *)
Lemma cost_to_go_lower (B : Z) :
  costs_within B ->
  forall p c m,
    0 <= m < 2 ^ city_count -> completes m p -> route_ok c p = true ->
    cost_to_go c m <= route_cost c p /\
    0 <= route_cost c p <= Z.of_nat (List.length p) * B.
Proof.
  intros [Hdi HB]. induction p as [|n q IH]; intros c m Hm Hcomp Hok.
  - rewrite (completes_nil m Hm Hcomp), (proj1 (value_full c)). simpl. lia.
  - pose proof (completes_length _ _ Hcomp) as Hlen.
    assert (Hn : 0 <= n < city_count /\ Z.testbit m n = false)
      by (apply (proj2 Hcomp); left; reflexivity).
    destruct Hn as [Hn Hb].
    simpl in Hok. apply andb_true_iff in Hok. destruct Hok as [Hreal Hok].
    apply negb_true_iff, Z.eqb_neq in Hreal.
    apply completes_cons in Hcomp; auto.
    destruct (IH n (mark m n) (mark_bound _ _ _ Hn (proj2 Hcount) Hb Hm) Hcomp Hok)
      as [Hle [H0 Hup]].
    destruct (Hdi c n) as [|Hd]; [contradiction|].
    pose proof (cost_to_go_range n (mark m n)) as Hrange.
    assert (Hc : candidate c m n = true)
      by (apply candidate_spec; [apply in_upto; assumption|auto]).
    pose proof (cost_to_go_le_candidate c m n Hn Hc) as Hcand.
    unfold candidate_cost, wrap64 in Hcand.
    simpl List.length in *. simpl route_cost.
    rewrite Z.mod_small in Hcand by (unfold NO_PATH in *; nia).
    split; nia.
Qed.


Lemma reached_inv (c m : Z) :
  1 <= city_count -> reached c m ->
  0 <= c < city_count /\ 0 <= m < 2 ^ city_count /\ Z.testbit m c = true.
Proof.
  intros H1. induction 1 as [|c m n Hr IH Hin Hc].
  - repeat split; try lia.
    change 1 with (2 ^ 0). apply Z.pow_lt_mono_r; lia.
  - destruct IH as (Hrc & Hm & Hbc).
    pose proof Hin as Hn. apply in_upto in Hn.
    apply candidate_spec in Hc; [|assumption]. destruct Hc as [Hb _].
    split; [exact Hn|]. split; [apply mark_bound; auto; lia|].
    rewrite mark_testbit, Z.eqb_refl, orb_true_r by lia. reflexivity.
Qed.

(** Without dead ends and with bounded costs the value of a reached state is
    the cost of a route that completes it. *)
Lemma cost_to_go_attained (B : Z) :
  1 <= city_count -> costs_within B -> no_dead_end city_count di ->
  forall k c m, reached c m -> (unvisited m <= k)%nat ->
    exists p, completes m p /\ route_ok c p = true /\
              route_cost c p = cost_to_go c m.
Proof.
  intros H1 HB Hnde. pose proof HB as [Hdi HNB].
  assert (Hstep : forall k,
    (forall c m, reached c m -> (unvisited m <= k)%nat ->
       exists p, completes m p /\ route_ok c p = true /\
                 route_cost c p = cost_to_go c m) ->
    forall c m n, reached c m -> (unvisited m <= S k)%nat ->
      0 <= n < city_count -> candidate c m n = true ->
      candidate_cost c m n = di c n + cost_to_go n (mark m n) /\
      candidate_cost c m n < NO_PATH /\
      exists q, completes (mark m n) q /\ route_ok n q = true /\
                route_cost n q = cost_to_go n (mark m n)).
  { intros k IH c m n Hr Hk Hn Hc.
    pose proof (reached_next _ _ c m n Hr (proj2 (in_upto _ _) Hn) Hc) as Hr'.
    pose proof Hc as Hc'. apply candidate_spec in Hc'; [|apply in_upto; assumption].
    destruct Hc' as [Hb Hreal].
    pose proof (unvisited_mark m n (proj2 (in_upto _ _) Hn) Hb) as Hdec.
    destruct (IH n (mark m n) Hr' ltac:(lia)) as (q & Hq & Hok & Hcost).
    destruct (reached_inv _ _ H1 Hr') as (_ & Hm' & _).
    destruct (cost_to_go_lower B HB q n (mark m n) Hm' Hq Hok) as [_ [H0 Hup]].
    pose proof (completes_length _ _ Hq) as Hlen.
    destruct (reached_inv _ _ H1 Hr) as (_ & Hm & _).
    assert (Hlen' : Z.of_nat (List.length q) + 1 <= city_count).
    { apply (completes_cons m n q Hn Hb) in Hq.
      apply completes_length in Hq. simpl List.length in Hq. lia. }
    destruct (Hdi c n) as [|Hd]; [contradiction|].
    unfold candidate_cost, wrap64. rewrite <- Hcost.
    rewrite Z.mod_small by (unfold NO_PATH in *; nia).
    split; [reflexivity|]. split; [nia|]. exists q. auto. }
  induction k as [|k IH]; intros c m Hr Hk;
    (destruct (Z.eq_dec m full) as [->|Hm];
     [exists []; split; [apply completes_full|];
      split; [reflexivity|]; rewrite (proj1 (value_full c)); reflexivity|]);
    destruct (Hnde c m Hr Hm) as (n0 & Hin0 & Hc0).
  - exfalso. pose proof Hc0 as Hc0'. apply candidate_spec in Hc0'; [|assumption].
    pose proof (unvisited_mark m n0 Hin0 (proj1 Hc0')). lia.
  - pose proof (Hstep k IH c m n0 Hr Hk (proj1 (in_upto _ _) Hin0) Hc0)
      as (_ & Hlt0 & _).
    destruct (choice_spec c m Hm) as [(_ & _ & Hall)|(Hrb & Hcb & Eb & _)].
    + rewrite (Hall n0 (proj1 (in_upto _ _) Hin0) Hc0) in Hlt0. lia.
    + destruct (Hstep k IH c m (choice c m) Hr Hk Hrb Hcb)
        as (Eq & _ & q & Hq & Hok & Hcost).
      pose proof Hcb as Hcb'.
      apply candidate_spec in Hcb'; [|apply in_upto; assumption].
      destruct Hcb' as [Hb Hreal].
      exists (choice c m :: q). split; [apply completes_cons; auto|].
      split.
      * simpl. rewrite Hok, andb_true_r. apply negb_true_iff, Z.eqb_neq. exact Hreal.
      * simpl. rewrite Hcost, <- Eq. exact Eb.
Qed.

Lemma ordering_completes (p : list Z) :
  ordering city_count p <-> completes 1 p.
Proof.
  unfold ordering, completes.
  assert (Hbit : forall k, 0 <= k -> (Z.testbit 1 k = false <-> 1 <= k)).
  { intros k Hk. change 1 with (2 ^ 0) at 1. rewrite Z.pow2_bits_eqb by lia.
    destruct (Z.eqb_spec 0 k); split; intros; try lia; try discriminate; auto. }
  split; intros [Hnd Hin]; (split; [exact Hnd|]); intros k; rewrite Hin; split.
  - intros Hk. split; [lia|]. apply Hbit; lia.
  - intros [Hk Hb]. apply Hbit in Hb; lia.
  - intros [Hk Hb]. apply Hbit in Hb; lia.
  - intros Hk. split; [lia|]. apply Hbit; lia.
Qed.

(** In a complete graph the search meets no dead end. *)
Lemma complete_no_dead_end :
  1 <= city_count -> complete_graph city_count di -> no_dead_end city_count di.
Proof.
  intros H1 Hcomplete c m Hr Hm.
  destruct (reached_inv _ _ H1 Hr) as (Hc & Hmr & Hbc).
  destruct (find (fun k => negb (Z.testbit m k)) (upto city_count)) as [k|] eqn:Ef.
  - apply find_some in Ef. destruct Ef as [Hin Hb]. apply negb_true_iff in Hb.
    exists k. split; [exact Hin|]. apply candidate_spec; [exact Hin|].
    split; [exact Hb|]. apply in_upto in Hin. apply Hcomplete; auto.
    intros ->. congruence.
  - exfalso. apply Hm. apply all_set_full; auto.
    intros k Hk. pose proof (find_none _ _ Ef k (proj2 (in_upto _ _) Hk)) as Hb.
    simpl in Hb. apply negb_false_iff in Hb. exact Hb.
Qed.

(** *** The reconstruction loop *)

Lemma edge_sum_app (es : list (Z * Z * Z)) (a d b : Z) :
  edge_sum (es ++ [(a, d, b)]) = edge_sum es + d.
Proof.
  induction es as [|[[a' d'] b'] es IH]; simpl; [lia|]. rewrite IH. lia.
Qed.

(** The running total is the sum of the emitted costs modulo 2^64, whatever
    the tables hold. *)
Lemma reconstruct_sum (fuel : nat) (s : tables) :
  forall w w', reconstruct di fuel s w = Ok w' ->
    w_total_cost w = wrap64 (edge_sum (w_edges w)) ->
    w_total_cost w' = wrap64 (edge_sum (w_edges w')).
Proof.
  induction fuel as [|fuel IH]; intros w w' H Hw; simpl in H; [discriminate|].
  destruct (_ =? -1).
  - inversion H; subst. exact Hw.
  - apply IH in H; [exact H|]. simpl.
    rewrite edge_sum_app, Hw. unfold wrap64.
    rewrite Z.add_mod_idemp_l by lia. reflexivity.
Qed.

(** Over consistent tables the loop follows [choice], stops, and keeps
    (total so far + cost still to go) unchanged modulo 2^64. *)
Lemma reconstruct_walk (s : tables) :
  consistent s ->
  forall fuel w,
    (unvisited (w_visited w) < fuel)%nat ->
    entry_done s (w_current w) (w_visited w) ->
    exists w',
      reconstruct di fuel s w = Ok w' /\
      next_city s (w_current w') (w_visited w') = -1 /\
      choice (w_current w') (w_visited w') = -1 /\
      wrap64 (w_total_cost w' + cost_to_go (w_current w') (w_visited w')) =
      wrap64 (w_total_cost w + cost_to_go (w_current w) (w_visited w)).
Proof.
  intros Cs. induction fuel as [|fuel IH]; intros w Hf Hd; [lia|]. simpl.
  destruct w as [c m T es]. simpl in *. unfold entry_done in Hd.
  destruct (Z.eqb_spec (next_city s c m) (-1)) as [E|E].
  - eexists. split; [reflexivity|]. simpl. repeat split; congruence.
  - assert (Hch : choice c m <> -1) by congruence.
    assert (Hm : m <> full) by (intros ->; destruct (value_full c); congruence).
    destruct (choice_spec c m Hm) as [(_ & E2 & _)|(Hr & Hc & Eb & _)]; [congruence|].
    apply candidate_spec in Hc; [|apply in_upto; assumption].
    assert (Hdp : dp s c m <> NO_PATH).
    { destruct (cons_entry _ _ _ Cs c m) as [[_ H]|[H _]]; [congruence|].
      rewrite H. apply choice_some_cost. exact Hch. }
    pose proof (cons_succ _ _ _ Cs c m Hdp) as Hnext.
    rewrite Hd in *.
    pose proof (unvisited_mark m _ (proj2 (in_upto _ _) Hr) (proj1 Hc)) as Hdec.
    destruct (IH {| w_current := choice c m;
                    w_visited := mark m (choice c m);
                    w_total_cost := wrap64 (T + di c (choice c m));
                    w_edges := es ++ [(c, di c (choice c m), choice c m)] |})
      as (w' & Ew & Hn1 & Hn2 & Hsum); simpl; [lia|exact Hnext|].
    exists w'. split; [exact Ew|]. split; [exact Hn1|]. split; [exact Hn2|].
    rewrite Hsum. simpl. rewrite <- Eb. unfold candidate_cost, wrap64.
    rewrite Z.add_mod_idemp_l, Z.add_mod_idemp_r by lia.
    f_equal. lia.
Qed.

(** The rows [solve_tsp] allocates hold [2^city_count] entries up to 60
    cities; from 61 cities on the rows of [dp] are too short. *)
Lemma row_entries_fit (size : Z) :
  (size = 8 \/ size = 4) -> city_count <= 60 ->
  row_entries city_count size = 2 ^ city_count.
Proof.
  intros Hsize Hn. unfold row_entries. rewrite shl1_pow2 by lia.
  assert (H0 : 0 < 2 ^ city_count) by (apply Z.pow_pos_nonneg; lia).
  assert (H3 : 2 ^ city_count * 8 < 2 ^ 64).
  { change 8 with (2 ^ 3). rewrite <- Z.pow_add_r by lia.
    apply Z.pow_lt_mono_r; lia. }
  unfold wrap64. rewrite Z.mod_small by (destruct Hsize; subst size; lia).
  apply Z.div_mul. destruct Hsize; lia.
Qed.

Lemma alloc_tables_fit :
  1 <= city_count <= 60 -> alloc_tables city_count = Ok init_tables.
Proof.
  intros Hn. unfold alloc_tables.
  destruct (Z.leb_spec city_count 0); [lia|].
  destruct (Z.leb_spec 64 city_count); [lia|].
  rewrite !row_entries_fit, shl1_pow2, Z.ltb_irrefl by (auto; lia).
  reflexivity.
Qed.

Lemma alloc_tables_overrun :
  61 <= city_count -> alloc_tables city_count = Fault OutOfBounds.
Proof.
  intros Hn.
  assert (E : city_count = 61 \/ city_count = 62 \/ city_count = 63) by lia.
  destruct E as [-> |[-> | ->]]; reflexivity.
Qed.

(** [solve_tsp_run] gives a result for 1 to 60 cities only. *)
Lemma solve_tsp_run_ok_range (x : Z * option walk) :
  solve_tsp_run city_count di = Ok x -> 1 <= city_count <= 60.
Proof.
  intros H. destruct (Z_le_gt_dec city_count 60) as [Hle|Hgt].
  - unfold solve_tsp_run in H.
    destruct (alloc_tables city_count); cbn [bind] in H; [|discriminate].
    destruct (Z.eqb_spec city_count 0) as [->|]; [discriminate|]. lia.
  - unfold solve_tsp_run in H. rewrite alloc_tables_overrun in H by lia.
    discriminate.
Qed.

(** [solve_tsp_run] produces its result for 1 to 60 cities: the root value is
    the cost of the root state; the walk, when there is one, ends where no city
    is chosen, its total is the sum of its edges modulo 2^64, and that total is
    the root value if every city has been visited. *)
Lemma solve_tsp_run_spec :
  1 <= city_count <= 60 ->
  exists route,
    solve_tsp_run city_count di = Ok (cost_to_go 0 1, route) /\
    match route with
    | None => cost_to_go 0 1 = NO_PATH
    | Some w =>
        cost_to_go 0 1 <> NO_PATH /\
        choice (w_current w) (w_visited w) = -1 /\
        w_total_cost w = wrap64 (edge_sum (w_edges w)) /\
        (w_visited w = full -> w_total_cost w = cost_to_go 0 1)
    end.
Proof.
  intros Hfit. unfold solve_tsp_run, root.
  rewrite alloc_tables_fit by exact Hfit. cbn [bind].
  destruct (Z.ltb_spec city_count 0); [lia|].
  destruct (Z.eqb_spec city_count 0); [lia|].
  pose proof (unvisited_le 1) as Hu.
  destruct (tsp_dp_refines (enough_fuel city_count) 0 1 init_tables)
    as (s & Er & Cs & Hd); [unfold enough_fuel; lia|apply consistent_init|].
  rewrite Er. cbn [bind].
  destruct (Z.eqb_spec (cost_to_go 0 1) NO_PATH) as [E|E].
  - exists None. auto.
  - destruct (reconstruct_walk s Cs (enough_fuel city_count) (start_walk))
      as (w & Ew & _ & Hch & Hsum); [unfold enough_fuel; simpl; lia|exact Hd|].
    rewrite Ew. cbn [bind]. exists (Some w). split; [reflexivity|].
    split; [exact E|]. split; [exact Hch|].
    pose proof (reconstruct_sum _ _ _ _ Ew eq_refl) as Htot.
    split; [exact Htot|].
    intros Hfull. rewrite Hfull, (proj1 (value_full _)) in Hsum. simpl in Hsum.
    rewrite Z.add_0_r in Hsum. unfold wrap64 in Hsum.
    rewrite Htot in Hsum. unfold wrap64 in Hsum. rewrite Z.mod_mod in Hsum by lia.
    pose proof (cost_to_go_range 0 1).
    rewrite (Z.mod_small (cost_to_go 0 1)) in Hsum by (unfold NO_PATH in *; lia).
    rewrite Htot. exact Hsum.
Qed.

End Search.

(** ** What main can report *)

Lemma solve_tsp_total (city_count : Z) (di : Z -> Z -> Z) (cities : list string) :
  1 <= city_count <= 60 -> exists out, solve_tsp city_count di cities = Ok out.
Proof.
  intros Hfit.
  destruct (solve_tsp_run_spec city_count di ltac:(lia) Hfit) as (route & Er & _).
  unfold solve_tsp. rewrite Er. cbn [bind]. destruct route; eauto.
Qed.

Lemma scanset_length (stop : ascii) (width : nat) :
  forall s, (String.length (fst (scanset stop width s)) <= width)%nat.
Proof.
  induction width as [|w IH]; intros s; simpl; [destruct s; simpl; lia|].
  destruct s as [|c rest]; simpl; [lia|].
  destruct (Ascii.eqb c stop); simpl; [lia|].
  specialize (IH rest). destruct (scanset stop w rest). simpl in *. lia.
Qed.

(** The names [sscanf] stores have at most 511 characters. *)
Lemma sscanf_edge_lengths (line city1 city2 : string) (distance : Z) :
  sscanf_edge line = Some (city1, city2, distance) ->
  (String.length city1 <= 511)%nat /\ (String.length city2 <= 511)%nat.
Proof.
  unfold sscanf_edge. intros H.
  pose proof (scanset_length "-"%char 511 line) as L1.
  destruct (scanset "-"%char 511 line) as [c1 r1].
  destruct c1 as [|a1 c1]; [discriminate|].
  destruct r1 as [|x r2]; [discriminate|].
  destruct (Ascii.eqb_spec x "-"%char) as [->|Hx].
  2:{ destruct x as [[] [] [] [] [] [] [] []]; try discriminate. congruence. }
  pose proof (scanset_length ":"%char 511 r2) as L2.
  destruct (scanset ":"%char 511 r2) as [c2 r3].
  destruct c2 as [|a2 c2]; [discriminate|].
  destruct r3 as [|y r4]; [discriminate|].
  destruct (Ascii.eqb_spec y ":"%char) as [->|Hy].
  2:{ destruct y as [[] [] [] [] [] [] [] []]; try discriminate. congruence. }
  destruct (scan_u64 (skip_space r4)); [|discriminate].
  inversion H; subst. auto.
Qed.

(** A line stops the program with the read error only: the length test that
    follows [sscanf] never holds. *)
Lemma read_line_report (line : string) (g : graph) (r : report) :
  read_line line g = Ok (inl r) -> r = fail_with msg_read.
Proof.
  unfold read_line. intros H.
  destruct (sscanf_edge (c_str line)) as [[[city1 city2] distance]|] eqn:E.
  - destruct (sscanf_edge_lengths _ _ _ _ E) as [L1 L2].
    destruct (Nat.leb_spec 512 (String.length city1)); [lia|].
    destruct (Nat.leb_spec 512 (String.length city2)); [lia|].
    simpl in H.
    destruct (register (g_cities g) city1) as [[i1 cities1]|]; simpl in H; [|discriminate].
    destruct (register cities1 city2) as [[i2 cities2]|]; simpl in H; discriminate.
  - inversion H. reflexivity.
Qed.

Lemma register_bound (cities cities' : list string) (name : string) (i : Z) :
  register cities name = Ok (i, cities') ->
  Z.of_nat (List.length cities) <= MAX_CITIES ->
  Z.of_nat (List.length cities') <= MAX_CITIES.
Proof.
  unfold register. intros H Hlen.
  destruct (get_city_index cities name =? -1).
  - destruct (Z.leb_spec MAX_CITIES (Z.of_nat (List.length cities))); [discriminate|].
    inversion H; subst. rewrite length_app. simpl. lia.
  - inversion H; subst. exact Hlen.
Qed.

Lemma read_line_bound (line : string) (g g' : graph) :
  read_line line g = Ok (inr g') ->
  g_city_count g <= MAX_CITIES -> g_city_count g' <= MAX_CITIES.
Proof.
  unfold read_line, g_city_count. intros H Hlen.
  destruct (sscanf_edge (c_str line)) as [[[city1 city2] distance]|]; [|discriminate].
  destruct (_ || _); [discriminate|].
  destruct (register (g_cities g) city1) as [[i1 cities1]|] eqn:E1; simpl in H; [|discriminate].
  destruct (register cities1 city2) as [[i2 cities2]|] eqn:E2; simpl in H; [|discriminate].
  inversion H; subst. simpl.
  eapply register_bound; [exact E2|]. eapply register_bound; [exact E1|exact Hlen].
Qed.

Lemma read_file_step (fuel : nat) (file : string) (g : graph) :
  read_file (S fuel) file g =
  match fgets 99 file with
  | (EmptyString, _) => Ok (inr g)
  | (line, rest) =>
      'step <- read_line line g ;;
      match step with
      | inl r => Ok (inl r)
      | inr g' => read_file fuel rest g'
      end
  end.
Proof. reflexivity. Qed.

Lemma read_file_outcome (fuel : nat) :
  forall file g x,
    read_file fuel file g = Ok x ->
    g_city_count g <= MAX_CITIES ->
    match x with
    | inl r => r = fail_with msg_read
    | inr g' => g_city_count g' <= MAX_CITIES
    end.
Proof.
  induction fuel as [|fuel IH]; intros file g x H Hlen; [discriminate|].
  rewrite read_file_step in H.
  destruct (fgets 99 file) as [line rest].
  destruct line as [|a line]; [inversion H; subst; exact Hlen|].
  destruct (read_line (String a line) g) as [[r|g']|] eqn:E; simpl in H; [| |discriminate].
  - inversion H; subst. eapply read_line_report; exact E.
  - eapply IH; [exact H|]. eapply read_line_bound; eauto.
Qed.

(** Every report of [main] has one of five shapes; neither the name-length
    error nor the city-count error is among them. *)
Lemma main_reports (argc : Z) (file : option string) (r : report) :
  main argc file = Ok r ->
  r = fail_with msg_usage \/ r = fail_with msg_open \/
  r = fail_with msg_read \/ r = fail_with msg_empty \/
  (exit_code r = 0 /\ stderr r = []).
Proof.
  unfold main. intros H.
  destruct (negb (argc =? 2)); [inversion H; auto|].
  destruct file as [content|]; [|inversion H; auto].
  unfold parse in H.
  destruct (read_file (S (String.length content)) content empty_graph) as [x|] eqn:E;
    simpl in H; [|discriminate].
  apply read_file_outcome in E; [|unfold g_city_count, MAX_CITIES; simpl; lia].
  destruct x as [r0|g].
  - inversion H; subst. auto.
  - destruct (Z.gtb_spec (g_city_count g) MAX_CITIES); [lia|].
    destruct (g_city_count g =? 0); [inversion H; auto|].
    destruct (solve_tsp (g_city_count g) (g_di g) (g_cities g)); simpl in H;
      [|discriminate].
    inversion H; subst. simpl. auto 10.
Qed.

(** *** The fuel of the model is never used up *)

Lemma fgets_length (n : nat) :
  forall file line rest,
    fgets n file = (line, rest) ->
    (String.length line + String.length rest = String.length file)%nat.
Proof.
  induction n as [|n IH]; intros file line rest H; simpl in H.
  - destruct file; inversion H; subst; reflexivity.
  - destruct file as [|c file]; [inversion H; subst; reflexivity|].
    destruct (Ascii.eqb c newline); [inversion H; subst; reflexivity|].
    destruct (fgets n file) as [l r] eqn:E. inversion H; subst.
    specialize (IH _ _ _ E). simpl. lia.
Qed.

Lemma read_line_fault (line : string) (g : graph) (f : fault) :
  read_line line g = Fault f -> f = OutOfBounds.
Proof.
  unfold read_line, register. intros H.
  destruct (sscanf_edge (c_str line)) as [[[city1 city2] distance]|]; [|discriminate].
  destruct (_ || _); [discriminate|].
  destruct (get_city_index (g_cities g) city1 =? -1).
  - destruct (MAX_CITIES <=? _); simpl in H; [congruence|].
    destruct (get_city_index _ city2 =? -1); [|discriminate].
    destruct (MAX_CITIES <=? _); simpl in H; [congruence|discriminate].
  - simpl in H.
    destruct (get_city_index _ city2 =? -1); [|discriminate].
    destruct (MAX_CITIES <=? _); simpl in H; [congruence|discriminate].
Qed.

Lemma read_file_fuel (fuel : nat) :
  forall file g, (String.length file < fuel)%nat ->
                 read_file fuel file g <> Fault OutOfFuel.
Proof.
  induction fuel as [|fuel IH]; intros file g Hlen; [lia|].
  rewrite read_file_step.
  destruct (fgets 99 file) as [line rest] eqn:Eg.
  apply fgets_length in Eg.
  destruct line as [|a line]; [discriminate|].
  destruct (read_line (String a line) g) as [[r|g']|f] eqn:El; simpl.
  - discriminate.
  - apply IH. simpl in Eg. lia.
  - apply read_line_fault in El. subst f. discriminate.
Qed.

Lemma solve_tsp_fuel (city_count : Z) (di : Z -> Z -> Z) (cities : list string) :
  0 <= city_count <= 64 -> solve_tsp city_count di cities <> Fault OutOfFuel.
Proof.
  intros Hn. destruct (Z_le_gt_dec city_count 60) as [Hle|Hgt].
  - destruct (Z.eq_dec city_count 0) as [->|Hne]; [discriminate|].
    destruct (solve_tsp_total city_count di cities ltac:(lia)) as [out E].
    rewrite E. discriminate.
  - assert (E : city_count = 61 \/ city_count = 62 \/ city_count = 63 \/
                city_count = 64) by lia.
    destruct E as [-> |[-> |[-> | ->]]]; discriminate.
Qed.

(** [main] always ends: with a report or with one of the two undefined
    operations. *)
Lemma main_never_out_of_fuel (argc : Z) (file : option string) :
  main argc file <> Fault OutOfFuel.
Proof.
  unfold main.
  destruct (negb (argc =? 2)); [discriminate|].
  destruct file as [content|]; [|discriminate].
  unfold parse.
  pose proof (read_file_fuel (S (String.length content)) content empty_graph
                ltac:(lia)) as Hfuel.
  destruct (read_file (S (String.length content)) content empty_graph) as [x|f] eqn:E;
    simpl; [|intros H; apply Hfuel; congruence].
  pose proof (read_file_outcome _ _ _ _ E) as Hx.
  destruct x as [r|g]; [discriminate|].
  specialize (Hx ltac:(unfold g_city_count, MAX_CITIES; simpl; lia)).
  destruct (g_city_count g >? MAX_CITIES); [discriminate|].
  destruct (g_city_count g =? 0); [discriminate|].
  pose proof (solve_tsp_fuel (g_city_count g) (g_di g) (g_cities g)) as Hs.
  destruct (solve_tsp (g_city_count g) (g_di g) (g_cities g)); simpl; [discriminate|].
  intros H. apply Hs; [unfold g_city_count, MAX_CITIES in *; lia|congruence].
Qed.

(** * The solver on the sample graphs *)

(** Case analysis over a distance table built with [upd]. *)
Ltac upd_cases :=
  repeat match goal with
         | |- context [if ?b then _ else _] => destruct b
         end.

Lemma di_triangle_within : costs_within 3 di_triangle 10.
Proof.
  split; [|reflexivity]. intros i j.
  unfold di_triangle, di_of. simpl. unfold upd.
  upd_cases; try (right; lia). left. reflexivity.
Qed.

Lemma di_triangle_complete : complete_graph 3 di_triangle.
Proof.
  intros i j Hi Hj Hne.
  assert (Ei : i = 0 \/ i = 1 \/ i = 2) by lia.
  assert (Ej : j = 0 \/ j = 1 \/ j = 2) by lia.
  destruct Ei as [Ei|[Ei|Ei]]; destruct Ej as [Ej|[Ej|Ej]]; subst;
    try contradiction; vm_compute; discriminate.
Qed.

Lemma consistent_init_3 : consistent 3 di_triangle init_tables.
Proof. apply consistent_init. Qed.

(** The orderings of two remaining cities. *)
Lemma ordering_3 (p : list Z) : ordering 3 p -> p = [1; 2] \/ p = [2; 1].
Proof.
  intros [Hnd Hin].
  assert (Hrange : forall k, In k p -> k = 1 \/ k = 2)
    by (intros k Hk; apply Hin in Hk; lia).
  pose proof (proj2 (Hin 1) ltac:(lia)) as H1.
  pose proof (proj2 (Hin 2) ltac:(lia)) as H2.
  destruct p as [|a [|b [|c p]]]; simpl in H1, H2.
  - contradiction.
  - lia.
  - inversion Hnd as [|? ? Hnot _]; subst.
    assert (a <> b) by (intros ->; apply Hnot; left; reflexivity).
    pose proof (Hrange a ltac:(simpl; auto)).
    pose proof (Hrange b ltac:(simpl; auto)).
    assert (E : a = 1 /\ b = 2 \/ a = 2 /\ b = 1) by lia.
    destruct E as [(Ea & Eb)|(Ea & Eb)]; subst; auto.
  - exfalso.
    inversion Hnd as [|? ? Hna Hnd1]; subst.
    inversion Hnd1 as [|? ? Hnb _]; subst.
    assert (a <> b) by (intros ->; apply Hna; simpl; auto).
    assert (a <> c) by (intros ->; apply Hna; simpl; auto).
    assert (b <> c) by (intros ->; apply Hnb; simpl; auto).
    pose proof (Hrange a ltac:(simpl; auto)).
    pose proof (Hrange b ltac:(simpl; auto)).
    pose proof (Hrange c ltac:(simpl; auto)).
    lia.
Qed.

Lemma ordering_3_12 : ordering 3 [1; 2].
Proof.
  split.
  - repeat constructor; simpl; intuition lia.
  - intros k. simpl. lia.
Qed.

(** The graphs [main] builds from the sample inputs. *)

Example parse_split :
  parse input_split =
    Ok (inr {| g_cities := ["A"; "B"; "C"; "D"]%string; g_di := di_split |}).
Proof. vm_compute. reflexivity. Qed.

Example parse_isolated :
  parse input_isolated =
    Ok (inr {| g_cities := ["A"; "B"; "C"]%string; g_di := di_isolated |}).
Proof. vm_compute. reflexivity. Qed.

Example parse_collapse :
  parse input_collapse =
    Ok (inr {| g_cities := ["A"; "B"; "C"]%string; g_di := di_collapse |}).
Proof. vm_compute. reflexivity. Qed.

Example parse_wrap :
  parse input_wrap =
    Ok (inr {| g_cities := ["A"; "B"; "C"]%string; g_di := di_wrap |}).
Proof. vm_compute. reflexivity. Qed.

Example parse_twice :
  parse input_twice =
    Ok (inr {| g_cities := ["A"; "B"; "C"; "D"; "E"]%string; g_di := di_twice |}).
Proof. vm_compute. reflexivity. Qed.

(** ** Sample runs *)

Example run_triangle :
  parse input_triangle =
    Ok (inr {| g_cities := ["A"; "B"; "C"]%string; g_di := di_triangle |}) /\
  run input_triangle =
    Ok {| exit_code := 0;
          stdout := [msg_header; "A -( 5 )-> B"%string; "B -( 10 )-> C"%string;
                     "Total cost: 15"%string];
          stderr := [] |}.
Proof. split; vm_compute; reflexivity. Qed.

Example run_two_cities :
  run (edge_text "X" "Y" "3") =
    Ok {| exit_code := 0;
          stdout := [msg_header; "X -( 3 )-> Y"%string; "Total cost: 3"%string];
          stderr := [] |}.
Proof. vm_compute. reflexivity. Qed.

Example run_malformed :
  run ("foo bar baz" ++ lf)%string = Ok (fail_with msg_read).
Proof. vm_compute. reflexivity. Qed.

Example run_empty : run EmptyString = Ok (fail_with msg_empty).
Proof. vm_compute. reflexivity. Qed.

Example run_usage : main 1 None = Ok (fail_with msg_usage).
Proof. reflexivity. Qed.

Example run_unreadable : main 2 None = Ok (fail_with msg_open).
Proof. reflexivity. Qed.

(** * Further properties *)

(** ** get_city_index and the registration of names *)

Lemma get_city_index_from_spec (cities : list string) (name : string) :
  forall k, 0 <= k ->
    (get_city_index_from k cities name = -1 /\ ~ In name cities) \/
    (k <= get_city_index_from k cities name < k + Z.of_nat (List.length cities) /\
     nth (Z.to_nat (get_city_index_from k cities name - k)) cities EmptyString = name /\
     forall j, k <= j < get_city_index_from k cities name ->
               nth (Z.to_nat (j - k)) cities EmptyString <> name).
Proof.
  induction cities as [|c rest IH]; intros k Hk; simpl.
  - left. auto.
  - destruct (String.eqb_spec c name) as [->|Hne].
    + right. split; [lia|]. rewrite Z.sub_diag. simpl. split; [reflexivity|].
      intros j Hj. lia.
    + destruct (IH (k + 1) ltac:(lia)) as [[E Hnot]|(Hr & Hnth & Hfirst)].
      * left. split; [exact E|]. intros [H|H]; [contradiction|auto].
      * right. split; [lia|]. split.
        -- replace (Z.to_nat (get_city_index_from (k + 1) rest name - k))
             with (S (Z.to_nat (get_city_index_from (k + 1) rest name - (k + 1))))
             by lia.
           exact Hnth.
        -- intros j Hj. destruct (Z.eq_dec j k) as [->|Hjk].
           ++ rewrite Z.sub_diag. simpl. exact Hne.
           ++ replace (Z.to_nat (j - k)) with (S (Z.to_nat (j - (k + 1)))) by lia.
              apply Hfirst. lia.
Qed.

Lemma get_city_index_cases (cities : list string) (name : string) :
  (get_city_index cities name = -1 /\ ~ In name cities) \/
  (0 <= get_city_index cities name < Z.of_nat (List.length cities) /\
   In name cities /\
   nth (Z.to_nat (get_city_index cities name)) cities EmptyString = name /\
   forall j, 0 <= j < get_city_index cities name ->
             nth (Z.to_nat j) cities EmptyString <> name).
Proof.
  unfold get_city_index.
  destruct (get_city_index_from_spec cities name 0 ltac:(lia))
    as [H|(Hr & Hnth & Hfirst)]; [left; exact H|right].
  rewrite Z.sub_0_r in Hnth. split; [lia|]. split.
  - rewrite <- Hnth. apply nth_In. lia.
  - split; [exact Hnth|]. intros j Hj. specialize (Hfirst j Hj).
    rewrite Z.sub_0_r in Hfirst. exact Hfirst.
Qed.

(** X1.  [get_city_index] returns -1 exactly when the name is not among the
    cities; otherwise it returns the position of its first occurrence, which
    lies below the city count. *)
Theorem get_city_index_first (cities : list string) (name : string) :
  (get_city_index cities name = -1 /\ ~ In name cities) \/
  (0 <= get_city_index cities name < Z.of_nat (List.length cities) /\
   In name cities /\
   nth (Z.to_nat (get_city_index cities name)) cities EmptyString = name /\
   forall j, 0 <= j < get_city_index cities name ->
             nth (Z.to_nat j) cities EmptyString <> name).
Proof. exact (get_city_index_cases cities name). Qed.

Lemma get_city_index_from_app (cities : list string) (name x : string) :
  forall k, In x cities ->
    get_city_index_from k (cities ++ [name]) x = get_city_index_from k cities x.
Proof.
  induction cities as [|c rest IH]; intros k Hin; simpl; [contradiction|].
  destruct (String.eqb_spec c x) as [|Hne]; [reflexivity|].
  apply IH. destruct Hin as [H|H]; [contradiction|exact H].
Qed.

Lemma get_city_index_from_new (cities : list string) (name : string) :
  forall k, ~ In name cities ->
    get_city_index_from k (cities ++ [name]) name = k + Z.of_nat (List.length cities).
Proof.
  induction cities as [|c rest IH]; intros k Hnot; simpl.
  - rewrite String.eqb_refl. lia.
  - destruct (String.eqb_spec c name) as [->|Hne]; [exfalso; apply Hnot; left; reflexivity|].
    rewrite IH by (intros H; apply Hnot; right; exact H). lia.
Qed.

Lemma register_cases (cities cities' : list string) (name : string) (i : Z) :
  NoDup cities ->
  register cities name = Ok (i, cities') ->
  get_city_index cities' name = i /\
  0 <= i < Z.of_nat (List.length cities') /\
  NoDup cities' /\
  (In name cities -> cities' = cities) /\
  (~ In name cities ->
   cities' = cities ++ [name] /\ i = Z.of_nat (List.length cities)) /\
  (forall x, In x cities -> get_city_index cities' x = get_city_index cities x).
Proof.
  intros Hnd H. unfold register in H.
  destruct (get_city_index_cases cities name) as [[E Hnot]|(Hr & Hin & _)].
  - rewrite E in H. simpl in H.
    destruct (MAX_CITIES <=? Z.of_nat (List.length cities)); [discriminate|].
    inversion H; subst. unfold get_city_index.
    rewrite get_city_index_from_new by assumption.
    rewrite length_app. simpl.
    split; [lia|]. split; [lia|]. split.
    { apply NoDup_app; [exact Hnd|repeat constructor; auto|].
      intros x Hx [<-|[]]. contradiction. }
    split; [intros; contradiction|]. split; [auto|].
    intros x Hx. apply get_city_index_from_app. exact Hx.
  - destruct (Z.eqb_spec (get_city_index cities name) (-1)) as [E|_]; [lia|].
    inversion H; subst.
    split; [reflexivity|]. split; [exact Hr|]. split; [exact Hnd|].
    split; [reflexivity|]. split; [intros; contradiction|reflexivity].
Qed.

(** X2.  Registering a name gives it an index under which it is found again.
    A name already present keeps its index and the list is unchanged; a new
    name is appended and gets the next free index; every name registered
    before keeps its index, and distinct names stay distinct. *)
Theorem register_lookup (cities cities' : list string) (name : string) (i : Z) :
  NoDup cities ->
  register cities name = Ok (i, cities') ->
  get_city_index cities' name = i /\
  0 <= i < Z.of_nat (List.length cities') /\
  NoDup cities' /\
  (In name cities -> cities' = cities) /\
  (~ In name cities ->
   cities' = cities ++ [name] /\ i = Z.of_nat (List.length cities)) /\
  (forall x, In x cities -> get_city_index cities' x = get_city_index cities x).
Proof. exact (register_cases cities cities' name i). Qed.

Lemma register_lookup_witness :
  get_city_index ["A"; "B"; "C"]%string "C"%string = 2 /\
  0 <= 2 < Z.of_nat (List.length ["A"; "B"; "C"]%string) /\
  NoDup ["A"; "B"; "C"]%string /\
  (In "C"%string ["A"; "B"]%string -> ["A"; "B"; "C"]%string = ["A"; "B"]%string) /\
  (~ In "C"%string ["A"; "B"]%string ->
   ["A"; "B"; "C"]%string = (["A"%string; "B"%string] ++ ["C"%string])%list /\
   2 = Z.of_nat (List.length ["A"; "B"]%string)) /\
  (forall x, In x ["A"; "B"]%string ->
             get_city_index ["A"; "B"; "C"]%string x = get_city_index ["A"; "B"]%string x).
Proof.
  apply (register_lookup ["A"; "B"]%string ["A"; "B"; "C"]%string "C"%string 2).
  - repeat constructor; simpl; intuition discriminate.
  - reflexivity.
Defined.

Lemma register_outcome (cities : list string) (name : string) :
  (register cities name = Fault OutOfBounds <->
   ~ In name cities /\ MAX_CITIES <= Z.of_nat (List.length cities)) /\
  ((exists i cities', register cities name = Ok (i, cities')) <->
   In name cities \/ Z.of_nat (List.length cities) < MAX_CITIES).
Proof.
  unfold register.
  destruct (get_city_index_cases cities name) as [[E Hnot]|(Hr & Hin & _)].
  - rewrite E. simpl.
    destruct (Z.leb_spec MAX_CITIES (Z.of_nat (List.length cities))).
    + split; [tauto|]. split.
      * intros (i & c' & H0). discriminate.
      * intros [H0|H0]; [contradiction|lia].
    + split; [split; [discriminate|intros [_ H0]; lia]|].
      split; [auto|eauto].
  - destruct (Z.eqb_spec (get_city_index cities name) (-1)) as [E|_]; [lia|].
    split; [split; [discriminate|intros [H0 _]; contradiction]|].
    split; [auto|eauto].
Qed.

(** ** The graph main builds *)

Lemma digits_nonneg (s : string) :
  forall count acc, 0 <= acc -> 0 <= snd (digits s count acc).
Proof.
  induction s as [|c s IH]; intros count acc Hacc; cbn [digits]; [exact Hacc|].
  destruct (isdigit c); [|exact Hacc]. apply IH.
  apply Z.add_nonneg_nonneg; [lia|apply Nat2Z.is_nonneg].
Qed.

Lemma scan_u64_range (s : string) (d : Z) :
  scan_u64 s = Some d -> 0 <= d <= NO_PATH.
Proof.
  unfold scan_u64. intros H.
  destruct (match skip_space s with
            | String "-"%char r => (true, r)
            | String "+"%char r => (false, r)
            | _ => (false, skip_space s)
            end) as [neg s2].
  pose proof (digits_nonneg s2 O 0 ltac:(lia)) as Hv.
  destruct (digits s2 O 0) as [n v]. simpl in Hv.
  destruct n as [|n]; [discriminate|].
  inversion H; subst. clear H.
  destruct (Z.ltb_spec NO_PATH v); [unfold NO_PATH; lia|].
  destruct neg; [|lia].
  pose proof (wrap64_range (- v)). unfold NO_PATH. lia.
Qed.

Lemma sscanf_edge_distance (line city1 city2 : string) (distance : Z) :
  sscanf_edge line = Some (city1, city2, distance) -> 0 <= distance <= NO_PATH.
Proof.
  unfold sscanf_edge. intros H.
  destruct (scanset "-"%char 511 line) as [c1 r1].
  destruct c1 as [|a1 c1]; [discriminate|].
  destruct r1 as [|x r2]; [discriminate|].
  destruct (Ascii.eqb_spec x "-"%char) as [->|Hx].
  2:{ destruct x as [[] [] [] [] [] [] [] []]; try discriminate. congruence. }
  destruct (scanset ":"%char 511 r2) as [c2 r3].
  destruct c2 as [|a2 c2]; [discriminate|].
  destruct r3 as [|y r4]; [discriminate|].
  destruct (Ascii.eqb_spec y ":"%char) as [->|Hy].
  2:{ destruct y as [[] [] [] [] [] [] [] []]; try discriminate. congruence. }
  destruct (scan_u64 (skip_space r4)) as [d|] eqn:E; [|discriminate].
  inversion H; subst. eapply scan_u64_range; exact E.
Qed.

Lemma upd_pair_symmetric (di : Z -> Z -> Z) (i j d : Z) :
  symmetric di -> symmetric (upd (upd di i j d) j i d).
Proof.
  intros Hs a b. unfold upd.
  destruct (Z.eqb_spec a j), (Z.eqb_spec b i), (Z.eqb_spec a i), (Z.eqb_spec b j);
    simpl; subst; auto; try lia.
Qed.

Lemma empty_graph_ok : graph_ok empty_graph.
Proof.
  constructor; simpl; try (intros; reflexivity).
  - constructor.
  - unfold g_city_count, MAX_CITIES. simpl. lia.
  - intros i j. reflexivity.
  - intros i j. unfold NO_PATH. lia.
Qed.

Lemma register_grows (cities cities' : list string) (name : string) (i : Z) :
  register cities name = Ok (i, cities') ->
  (List.length cities <= List.length cities')%nat /\
  (1 <= List.length cities')%nat /\
  Z.of_nat (List.length cities') <= MAX_CITIES \/
  (List.length cities <= List.length cities')%nat /\
  (1 <= List.length cities')%nat /\ cities' = cities.
Proof.
  unfold register. intros H.
  destruct (get_city_index_cases cities name) as [[E Hnot]|(Hr & Hin & _)].
  - rewrite E in H. simpl in H.
    destruct (Z.leb_spec MAX_CITIES (Z.of_nat (List.length cities))); [discriminate|].
    inversion H; subst. left. rewrite length_app. simpl. lia.
  - destruct (Z.eqb_spec (get_city_index cities name) (-1)) as [E|_]; [lia|].
    inversion H; subst. right. split; [lia|]. split; [lia|reflexivity].
Qed.

(** One line keeps the graph well formed and leaves at least one city. *)
Lemma read_line_ok (line : string) (g g' : graph) :
  graph_ok g -> read_line line g = Ok (inr g') ->
  graph_ok g' /\ g_city_count g <= g_city_count g' /\ 1 <= g_city_count g'.
Proof.
  intros Hok H. unfold read_line in H.
  destruct (sscanf_edge (c_str line)) as [[[city1 city2] distance]|] eqn:Es;
    [|discriminate].
  destruct (_ || _); [discriminate|].
  destruct (register (g_cities g) city1) as [[i1 cities1]|] eqn:E1; simpl in H;
    [|discriminate].
  destruct (register cities1 city2) as [[i2 cities2]|] eqn:E2; simpl in H;
    [|discriminate].
  inversion H; subst. clear H.
  destruct (register_cases _ _ _ _ (ok_distinct _ Hok) E1)
    as (_ & Hi1 & Hnd1 & _ & _ & _).
  destruct (register_cases _ _ _ _ Hnd1 E2) as (_ & Hi2 & Hnd2 & _ & _ & _).
  pose proof (register_bound _ _ _ _ E1 (ok_count _ Hok)) as Hb1.
  pose proof (register_bound _ _ _ _ E2 Hb1) as Hb2.
  assert (Hlen1 : (List.length (g_cities g) <= List.length cities1)%nat)
    by (destruct (register_grows _ _ _ _ E1) as [H|H]; tauto).
  assert (Hlen2 : (List.length cities1 <= List.length cities2)%nat)
    by (destruct (register_grows _ _ _ _ E2) as [H|H]; tauto).
  pose proof (sscanf_edge_distance _ _ _ _ Es) as Hd.
  unfold g_city_count in *. simpl.
  split; [|lia]. constructor; simpl.
  - exact Hnd2.
  - exact Hb2.
  - apply upd_pair_symmetric. exact (ok_symmetric _ Hok).
  - intros i j Hout. unfold g_city_count in Hout. simpl in Hout.
    rewrite !upd_other by lia.
    apply (ok_outside _ Hok). unfold g_city_count. lia.
  - intros i j. unfold upd.
    destruct (_ && _); [exact Hd|]. destruct (_ && _); [exact Hd|].
    apply (ok_range _ Hok).
Qed.

Lemma fgets_nonempty (n : nat) (c : ascii) (file : string) :
  fst (fgets (S n) (String c file)) <> EmptyString.
Proof.
  simpl. destruct (Ascii.eqb c newline); [discriminate|].
  destruct (fgets n file). discriminate.
Qed.

Lemma read_file_ok (fuel : nat) :
  forall file g g',
    graph_ok g -> read_file fuel file g = Ok (inr g') ->
    graph_ok g' /\ g_city_count g <= g_city_count g' /\
    (file <> EmptyString -> 1 <= g_city_count g').
Proof.
  induction fuel as [|fuel IH]; intros file g g' Hok H; [discriminate|].
  rewrite read_file_step in H.
  destruct (fgets 99 file) as [line rest] eqn:Eg.
  destruct line as [|a line].
  - inversion H; subst. split; [exact Hok|]. split; [lia|].
    intros Hne. destruct file as [|c file]; [contradiction|].
    exfalso. apply (fgets_nonempty 98 c file). rewrite Eg. reflexivity.
  - destruct (read_line (String a line) g) as [[r|g1]|] eqn:El; simpl in H;
      try discriminate.
    destruct (read_line_ok _ _ _ Hok El) as (Hok1 & Hle1 & Hone).
    destruct (IH _ _ _ Hok1 H) as (Hok' & Hle' & _).
    split; [exact Hok'|]. split; lia.
Qed.

Lemma parse_ok (content : string) (g : graph) :
  parse content = Ok (inr g) ->
  graph_ok g /\ (content <> EmptyString -> 1 <= g_city_count g).
Proof.
  unfold parse. intros H.
  destruct (read_file_ok _ _ _ _ empty_graph_ok H) as (Hok & _ & Hne). auto.
Qed.

Lemma get_city_index_nth (cities : list string) (i : nat) :
  NoDup cities -> (i < List.length cities)%nat ->
  get_city_index cities (nth i cities EmptyString) = Z.of_nat i.
Proof.
  intros Hnd Hi.
  destruct (get_city_index_cases cities (nth i cities EmptyString))
    as [[_ Hnot]|(Hr & _ & Hnth & _)].
  - exfalso. apply Hnot. apply nth_In. exact Hi.
  - assert (E : Z.to_nat (get_city_index cities (nth i cities EmptyString)) = i).
    { apply (proj1 (NoDup_nth cities EmptyString) Hnd); [lia|exact Hi|exact Hnth]. }
    lia.
Qed.

(** X4.  In the graph a file parses to, the city names are pairwise distinct,
    there are at most 64 of them, and looking a name up gives back the index it
    is stored at: indices are dense and no two cities share one. *)
Theorem parsed_names_distinct (content : string) (g : graph) :
  parse content = Ok (inr g) ->
  NoDup (g_cities g) /\
  g_city_count g <= MAX_CITIES /\
  forall i, 0 <= i < g_city_count g ->
            get_city_index (g_cities g) (city_name (g_cities g) i) = i.
Proof.
  intros H. destruct (parse_ok _ _ H) as [Hok _].
  split; [exact (ok_distinct _ Hok)|]. split; [exact (ok_count _ Hok)|].
  intros i Hi. unfold city_name, g_city_count in *.
  rewrite get_city_index_nth; [lia|exact (ok_distinct _ Hok)|lia].
Qed.

Lemma parsed_names_distinct_witness :
  NoDup ["A"; "B"; "C"]%string /\
  g_city_count {| g_cities := ["A"; "B"; "C"]%string; g_di := di_triangle |}
    <= MAX_CITIES /\
  forall i, 0 <= i < g_city_count {| g_cities := ["A"; "B"; "C"]%string;
                                    g_di := di_triangle |} ->
            get_city_index ["A"; "B"; "C"]%string
              (city_name ["A"; "B"; "C"]%string i) = i.
Proof.
  apply (parsed_names_distinct input_triangle
           {| g_cities := ["A"; "B"; "C"]%string; g_di := di_triangle |}).
  vm_compute. reflexivity.
Defined.

(** X5.  The distance table a file parses to is symmetric, in whichever order
    the two names of an edge were written and however often an edge was
    repeated. *)
Theorem parsed_table_symmetric (content : string) (g : graph) :
  parse content = Ok (inr g) -> forall i j, g_di g i j = g_di g j i.
Proof.
  intros H. destruct (parse_ok _ _ H) as [Hok _]. exact (ok_symmetric _ Hok).
Qed.

Lemma parsed_table_symmetric_witness : di_triangle 1 2 = di_triangle 2 1.
Proof.
  apply (parsed_table_symmetric input_triangle
           {| g_cities := ["A"; "B"; "C"]%string; g_di := di_triangle |}).
  vm_compute. reflexivity.
Defined.

(** X6.  In the distance table a file parses to, every entry that is not
    between two registered cities is still NO_PATH, and every entry is a
    64-bit unsigned value. *)
Theorem parsed_table_entries (content : string) (g : graph) :
  parse content = Ok (inr g) ->
  (forall i j, ~ (0 <= i < g_city_count g /\ 0 <= j < g_city_count g) ->
               g_di g i j = NO_PATH) /\
  (forall i j, 0 <= g_di g i j <= NO_PATH).
Proof.
  intros H. destruct (parse_ok _ _ H) as [Hok _].
  split; [exact (ok_outside _ Hok)|exact (ok_range _ Hok)].
Qed.

Lemma parsed_table_entries_witness :
  (forall i j, ~ (0 <= i < 3 /\ 0 <= j < 3) -> di_triangle i j = NO_PATH) /\
  (forall i j, 0 <= di_triangle i j <= NO_PATH).
Proof.
  apply (parsed_table_entries input_triangle
           {| g_cities := ["A"; "B"; "C"]%string; g_di := di_triangle |}).
  vm_compute. reflexivity.
Defined.

(** ** The reports of main *)

Lemma solve_tsp_shape (city_count : Z) (di : Z -> Z -> Z) (cities : list string)
    (out : list string) :
  solve_tsp city_count di cities = Ok out ->
  out = [msg_no_route] \/
  exists lines total, out = [msg_header] ++ lines ++ [total_line total].
Proof.
  unfold solve_tsp. intros H.
  destruct (solve_tsp_run city_count di) as [[r route]|]; simpl in H; [|discriminate].
  destruct route as [w|]; inversion H; subst; [right|left; reflexivity].
  exists (map (edge_line cities) (w_edges w)), (w_total_cost w). reflexivity.
Qed.

(** X7.  The program ends with the empty-input error exactly when the file
    has no character at all; any first line either registers a city or stops
    the run with another error. *)
Theorem empty_error_iff_empty_file (content : string) :
  run content = Ok (fail_with msg_empty) <-> content = EmptyString.
Proof.
  split; [|intros ->; reflexivity].
  unfold run, main. simpl negb. cbv iota. intros H.
  destruct (parse content) as [[r|g]|] eqn:E; simpl in H; [| |discriminate].
  - unfold parse in E. apply read_file_outcome in E;
      [|unfold g_city_count, MAX_CITIES; simpl; lia].
    subst r. vm_compute in H. discriminate.
  - destruct (g_city_count g >? MAX_CITIES); [vm_compute in H; discriminate|].
    destruct (Z.eqb_spec (g_city_count g) 0) as [E0|E0].
    + destruct content as [|c content]; [reflexivity|].
      destruct (parse_ok _ _ E) as [_ Hne].
      specialize (Hne ltac:(discriminate)). lia.
    + destruct (solve_tsp (g_city_count g) (g_di g) (g_cities g)); simpl in H;
        discriminate.
Qed.

(** X8.  Whatever the arguments and the file, a report of [main] is of one of
    two kinds: exit code 1 with nothing on stdout and one of four messages on
    stderr, or exit code 0 with nothing on stderr and, on stdout, either the
    no-route line alone or the header, the edge lines and the total line. *)
Theorem main_report_shape (argc : Z) (file : option string) (r : report) :
  main argc file = Ok r ->
  (exit_code r = 1 /\ stdout r = [] /\
   (stderr r = [msg_usage] \/ stderr r = [msg_open] \/
    stderr r = [msg_read] \/ stderr r = [msg_empty])) \/
  (exit_code r = 0 /\ stderr r = [] /\
   (stdout r = [msg_no_route] \/
    exists lines total, stdout r = [msg_header] ++ lines ++ [total_line total])).
Proof.
  unfold main. intros H.
  destruct (negb (argc =? 2)); [inversion H; left; simpl; split; [reflexivity|split; [reflexivity|auto 10]]|].
  destruct file as [content|]; [|inversion H; left; simpl; split; [reflexivity|split; [reflexivity|auto 10]]].
  destruct (parse content) as [[r0|g]|] eqn:E; simpl in H; [| |discriminate].
  - unfold parse in E. apply read_file_outcome in E;
      [|unfold g_city_count, MAX_CITIES; simpl; lia].
    inversion H; subst. left. simpl. split; [reflexivity|split; [reflexivity|auto 10]].
  - destruct (parse_ok _ _ E) as [Hok _].
    pose proof (ok_count _ Hok) as Hc.
    destruct (Z.gtb_spec (g_city_count g) MAX_CITIES); [lia|].
    destruct (g_city_count g =? 0); [inversion H; left; simpl; split; [reflexivity|split; [reflexivity|auto 10]]|].
    destruct (solve_tsp (g_city_count g) (g_di g) (g_cities g)) as [out|] eqn:Es;
      simpl in H; [|discriminate].
    inversion H; subst. right. simpl. split; [reflexivity|]. split; [reflexivity|].
    eapply solve_tsp_shape. exact Es.
Qed.

Lemma main_report_shape_witness :
  (exit_code (fail_with msg_read) = 1 /\ stdout (fail_with msg_read) = [] /\
   (stderr (fail_with msg_read) = [msg_usage] \/
    stderr (fail_with msg_read) = [msg_open] \/
    stderr (fail_with msg_read) = [msg_read] \/
    stderr (fail_with msg_read) = [msg_empty])) \/
  (exit_code (fail_with msg_read) = 0 /\ stderr (fail_with msg_read) = [] /\
   (stdout (fail_with msg_read) = [msg_no_route] \/
    exists lines total,
      stdout (fail_with msg_read) = [msg_header] ++ lines ++ [total_line total])).
Proof.
  apply (main_report_shape 2 (Some ("foo bar baz" ++ lf)%string)).
  vm_compute. reflexivity.
Defined.

(** ** Reading back a well-formed line *)

Lemma digits_stop (rest : string) (count : nat) (acc : Z) :
  digits (String newline rest) count acc = (count, acc).
Proof. reflexivity. Qed.

(** The digit loop computes what [Pos.of_uint_acc] computes. *)
Lemma digits_of_uint_acc (u : Decimal.uint) :
  forall rest count p,
    digits (NilEmpty.string_of_uint u ++ String newline rest) count (Z.pos p) =
    ((Decimal.nb_digits u + count)%nat, Z.pos (Pos.of_uint_acc u p)).
Proof.
  induction u; intros rest count p;
    try (cbn [NilEmpty.string_of_uint String.append digits Pos.of_uint_acc
              Decimal.nb_digits];
         match goal with
         | |- context [isdigit ?c] => change (isdigit c) with true
         end; cbv iota;
         match goal with
         | |- digits _ _ ?v = _ =>
             match goal with
             | |- _ = (_, Z.pos (Pos.of_uint_acc _ ?q)) =>
                 replace v with (Z.pos q) by (vm_compute Z.of_nat; lia)
             end
         end;
         rewrite IHu; f_equal; lia).
  reflexivity.
Qed.

Lemma digits_of_uint (u : Decimal.uint) :
  forall rest count,
    digits (NilEmpty.string_of_uint u ++ String newline rest) count 0 =
    ((Decimal.nb_digits u + count)%nat, Z.of_N (Pos.of_uint u)).
Proof.
  induction u; intros rest count;
    try (cbn [NilEmpty.string_of_uint String.append digits Pos.of_uint
              Decimal.nb_digits];
         match goal with
         | |- context [isdigit ?c] => change (isdigit c) with true
         end; cbv iota;
         match goal with
         | |- digits _ _ ?v = (_, Z.of_N (N.pos (Pos.of_uint_acc _ ?q))) =>
             replace v with (Z.pos q) by (vm_compute; reflexivity)
         end;
         rewrite digits_of_uint_acc; f_equal; lia).
  - reflexivity.
  - cbn [NilEmpty.string_of_uint String.append digits Pos.of_uint Decimal.nb_digits].
    change (isdigit "0"%char) with true. cbv iota.
    change (10 * 0 + Z.of_nat (nat_of_ascii "0" - 48)) with 0.
    rewrite IHu. f_equal. lia.
Qed.

Lemma scan_u64_digit_first (c : ascii) (r : string) :
  isdigit c = true ->
  scan_u64 (String c r) =
  match digits (String c r) O 0 with
  | (O, _) => None
  | (_, v) => Some (if NO_PATH <? v then NO_PATH else v)
  end.
Proof.
  destruct c as [[] [] [] [] [] [] [] []]; intros H; try discriminate H; reflexivity.
Qed.

Lemma string_of_uint_head (u : Decimal.uint) (rest : string) :
  u <> Decimal.Nil ->
  exists c r, (NilEmpty.string_of_uint u ++ rest)%string = String c r /\
              isdigit c = true /\ isspace c = false.
Proof.
  intros Hu. destruct u; [contradiction|..]; simpl; eexists; eexists;
    (split; [reflexivity|split; reflexivity]).
Qed.

(** [%" SCNu64 "] reads back what [%" PRIu64 "] prints. *)
Lemma scan_u64_print (v : Z) (rest : string) :
  0 <= v <= NO_PATH ->
  scan_u64 (print_u64 v ++ String newline rest) = Some v /\
  skip_space (print_u64 v ++ String newline rest) =
    (print_u64 v ++ String newline rest)%string.
Proof.
  intros Hv. unfold print_u64.
  set (u := N.to_uint (Z.to_N v)).
  assert (Hu : u <> Decimal.Nil).
  { unfold u. destruct (Z.to_N v); simpl; [discriminate|].
    apply DecimalPos.Unsigned.to_uint_nonnil. }
  assert (Es : NilZero.string_of_uint u = NilEmpty.string_of_uint u)
    by (destruct u; [contradiction|..]; reflexivity).
  rewrite Es.
  destruct (string_of_uint_head u (String newline rest) Hu) as (c & r & E & Hd & Hsp).
  split.
  - rewrite E, scan_u64_digit_first by exact Hd. rewrite <- E.
    rewrite digits_of_uint.
    assert (Ev : Z.of_N (Pos.of_uint u) = v).
    { change (Pos.of_uint u) with (N.of_uint u). unfold u.
      rewrite DecimalN.Unsigned.of_to. lia. }
    rewrite Ev.
    destruct (Decimal.nb_digits u + 0)%nat eqn:En.
    + exfalso. destruct u; [contradiction|..]; simpl in En; discriminate.
    + destruct (Z.ltb_spec NO_PATH v); [lia|reflexivity].
  - rewrite E. simpl. rewrite Hsp. reflexivity.
Qed.

Lemma has_char_app (c : ascii) (s1 s2 : string) :
  has_char c (s1 ++ s2) = has_char c s1 || has_char c s2.
Proof.
  induction s1 as [|x s1 IH]; simpl; [reflexivity|].
  rewrite IH, orb_assoc. reflexivity.
Qed.

Lemma has_char_digits (c : ascii) (u : Decimal.uint) :
  isdigit c = false -> has_char c (NilEmpty.string_of_uint u) = false.
Proof.
  intros Hc. induction u; cbn [NilEmpty.string_of_uint has_char];
    [reflexivity|..]; rewrite IHu;
    match goal with
    | |- (Ascii.eqb ?k c || false) = false =>
        destruct (Ascii.eqb_spec k c) as [<-|]; [discriminate Hc|reflexivity]
    end.
Qed.

Lemma has_char_print (c : ascii) (v : Z) :
  isdigit c = false -> has_char c (print_u64 v) = false.
Proof.
  intros Hc. unfold print_u64, NilZero.string_of_uint.
  destruct (N.to_uint (Z.to_N v)) eqn:E;
    try (rewrite <- E at 1; apply has_char_digits; exact Hc);
    try (apply has_char_digits; exact Hc).
  cbn [has_char]. destruct (Ascii.eqb_spec "0"%char c) as [<-|]; [discriminate Hc|reflexivity].
Qed.

Lemma c_str_clean (s : string) : has_char nul s = false -> c_str s = s.
Proof.
  induction s as [|x s IH]; simpl; intros H; [reflexivity|].
  apply orb_false_elim in H. destruct H as [Hx Hs].
  rewrite Hx, IH by exact Hs. reflexivity.
Qed.

Lemma scanset_exact (stop : ascii) (a rest : string) :
  forall width,
    has_char stop a = false -> (String.length a <= width)%nat ->
    scanset stop width (a ++ String stop rest) = (a, String stop rest).
Proof.
  induction a as [|x a IH]; intros width Hc Hlen.
  - destruct width; simpl; [reflexivity|]. rewrite Ascii.eqb_refl. reflexivity.
  - simpl in Hc, Hlen. apply orb_false_elim in Hc. destruct Hc as [Hx Ha].
    destruct width as [|width]; [lia|].
    cbn [String.append scanset]. rewrite Hx, IH by (auto; lia). reflexivity.
Qed.

Lemma field_ok_spec (stop : ascii) (s : string) :
  field_ok stop s = true ->
  (exists x s', s = String x s') /\ (String.length s <= 511)%nat /\
  has_char stop s = false /\ has_char nul s = false.
Proof.
  unfold field_ok. intros H.
  apply andb_true_iff in H. destruct H as [H Hn].
  apply andb_true_iff in H. destruct H as [H Hs].
  apply andb_true_iff in H. destruct H as [He Hl].
  apply negb_true_iff in Hn, Hs, He.
  apply Nat.leb_le in Hl.
  repeat split; auto.
  destruct s as [|x s']; [discriminate He|eauto].
Qed.

Lemma sscanf_edge_line (a b : string) (v : Z) :
  field_ok "-"%char a = true ->
  field_ok ":"%char b = true ->
  0 <= v <= NO_PATH ->
  c_str (edge_text a b (print_u64 v)) = edge_text a b (print_u64 v) /\
  sscanf_edge (edge_text a b (print_u64 v)) = Some (a, b, v).
Proof.
  intros Ha Hb Hv.
  destruct (field_ok_spec _ _ Ha) as ((xa & a' & Ea) & La & Hsa & Hna).
  destruct (field_ok_spec _ _ Hb) as ((xb & b' & Eb) & Lb & Hsb & Hnb).
  destruct (scan_u64_print v EmptyString Hv) as [Hscan Hskip].
  unfold edge_text, lf. split.
  - apply c_str_clean.
    rewrite !has_char_app, Hna, Hnb, has_char_print by reflexivity. reflexivity.
  - unfold sscanf_edge.
    cbn [String.append].
    change (String "-" (b ++ String ":" (String " " (print_u64 v ++ String newline ""))))%string
      with (String "-"%char (b ++ String ":"%char
              (String " "%char (print_u64 v ++ String newline EmptyString))))%string.
    rewrite (scanset_exact "-"%char a _ 511 Hsa La).
    rewrite Ea at 1.
    rewrite (scanset_exact ":"%char b _ 511 Hsb Lb).
    rewrite Eb at 1.
    cbn [skip_space]. change (isspace " "%char) with true. cbv iota.
    rewrite Hskip, Hscan. subst. reflexivity.
Qed.

(** X9.  A line [a-b: d] followed by a newline, with [a] and [b] not empty,
    at most 511 characters long, free of NUL, [a] free of '-' and [b] free of
    ':', and [d] the decimal form of a 64-bit unsigned value, is read by the
    [sscanf] call as exactly the two names and that value. *)
Theorem sscanf_reads_edge_line (a b : string) (v : Z) :
  field_ok "-"%char a = true ->
  field_ok ":"%char b = true ->
  0 <= v <= NO_PATH ->
  c_str (edge_text a b (print_u64 v)) = edge_text a b (print_u64 v) /\
  sscanf_edge (edge_text a b (print_u64 v)) = Some (a, b, v).
Proof. exact (sscanf_edge_line a b v). Qed.

Lemma sscanf_reads_edge_line_witness :
  c_str (edge_text "Bern" "Basel" (print_u64 95)) =
    edge_text "Bern" "Basel" (print_u64 95) /\
  sscanf_edge (edge_text "Bern" "Basel" (print_u64 95)) =
    Some ("Bern"%string, "Basel"%string, 95).
Proof.
  apply (sscanf_reads_edge_line "Bern" "Basel" 95);
    [reflexivity | reflexivity | unfold NO_PATH; lia].
Defined.

Lemma read_line_edge (g : graph) (a b : string) (v : Z) :
  graph_ok g ->
  field_ok "-"%char a = true ->
  field_ok ":"%char b = true ->
  0 <= v <= NO_PATH ->
  g_city_count g + 2 <= MAX_CITIES ->
  exists g',
    read_line (edge_text a b (print_u64 v)) g = Ok (inr g') /\
    graph_ok g' /\
    0 <= get_city_index (g_cities g') a < g_city_count g' /\
    0 <= get_city_index (g_cities g') b < g_city_count g' /\
    g_di g' (get_city_index (g_cities g') a) (get_city_index (g_cities g') b) = v /\
    g_di g' (get_city_index (g_cities g') b) (get_city_index (g_cities g') a) = v /\
    (forall x, In x (g_cities g) ->
               get_city_index (g_cities g') x = get_city_index (g_cities g) x) /\
    (forall i j,
        ~ (i = get_city_index (g_cities g') a /\ j = get_city_index (g_cities g') b) ->
        ~ (i = get_city_index (g_cities g') b /\ j = get_city_index (g_cities g') a) ->
        g_di g' i j = g_di g i j).
Proof.
  intros Hok Ha Hb Hv Hroom.
  destruct (sscanf_edge_line a b v Ha Hb Hv) as [Ec Es].
  destruct (field_ok_spec _ _ Ha) as (_ & La & _).
  destruct (field_ok_spec _ _ Hb) as (_ & Lb & _).
  unfold g_city_count in Hroom.
  assert (R1 : exists i1 cities1, register (g_cities g) a = Ok (i1, cities1)).
  { apply (proj2 (register_outcome (g_cities g) a)). right. lia. }
  destruct R1 as (i1 & cities1 & E1).
  destruct (register_cases _ _ _ _ (ok_distinct _ Hok) E1)
    as (Hg1 & Hi1 & Hnd1 & Hsame1 & Hnew1 & Hold1).
  assert (Hlen1 : Z.of_nat (List.length cities1) <= Z.of_nat (List.length (g_cities g)) + 1).
  { destruct (in_dec string_dec a (g_cities g)) as [Hin|Hnin].
    - rewrite (Hsame1 Hin). lia.
    - rewrite (proj1 (Hnew1 Hnin)), length_app. simpl. lia. }
  assert (R2 : exists i2 cities2, register cities1 b = Ok (i2, cities2)).
  { apply (proj2 (register_outcome cities1 b)). right. lia. }
  destruct R2 as (i2 & cities2 & E2).
  destruct (register_cases _ _ _ _ Hnd1 E2)
    as (Hg2 & Hi2 & Hnd2 & Hsame2 & Hnew2 & Hold2).
  assert (Hin1 : In a cities1).
  { destruct (get_city_index_cases cities1 a) as [[E _]|(_ & Hin & _)]; [lia|exact Hin]. }
  assert (Hlen2 : (List.length cities1 <= List.length cities2)%nat)
    by (destruct (register_grows _ _ _ _ E2) as [H|H]; tauto).
  assert (Hga : get_city_index cities2 a = i1) by (rewrite Hold2; assumption).
  assert (Hline : read_line (edge_text a b (print_u64 v)) g =
                  Ok (inr {| g_cities := cities2;
                             g_di := upd (upd (g_di g) i1 i2 v) i2 i1 v |})).
  { unfold read_line. rewrite Ec, Es.
    destruct (Nat.leb_spec 512 (String.length a)); [lia|].
    destruct (Nat.leb_spec 512 (String.length b)); [lia|].
    cbn [orb]. rewrite E1. cbn [bind]. rewrite E2. reflexivity. }
  eexists. split; [exact Hline|].
  split; [exact (proj1 (read_line_ok _ _ _ Hok Hline))|].
  unfold g_city_count. cbn [g_cities g_di]. rewrite Hga, Hg2.
  split; [lia|]. split; [lia|].
  split.
  { unfold upd. destruct ((i1 =? i2) && (i2 =? i1)); [reflexivity|].
    rewrite !Z.eqb_refl. reflexivity. }
  split; [apply upd_same|].
  split.
  { intros x Hx. rewrite Hold2; [apply Hold1; exact Hx|].
    destruct (in_dec string_dec a (g_cities g)) as [Hin|Hnin].
    - rewrite (Hsame1 Hin). exact Hx.
    - rewrite (proj1 (Hnew1 Hnin)). apply in_or_app. left. exact Hx. }
  intros i j H1 H2. rewrite !upd_other by lia. reflexivity.
Qed.

(** X10.  Reading a well-formed line [a-b: d] into a graph with room for two
    more cities succeeds: afterwards both names are registered, the table holds
    [d] between them in both directions whatever it held before, every other
    entry is unchanged, and every city registered before keeps its index. *)
Theorem read_line_stores_edge (g : graph) (a b : string) (v : Z) :
  graph_ok g ->
  field_ok "-"%char a = true ->
  field_ok ":"%char b = true ->
  0 <= v <= NO_PATH ->
  g_city_count g + 2 <= MAX_CITIES ->
  exists g',
    read_line (edge_text a b (print_u64 v)) g = Ok (inr g') /\
    graph_ok g' /\
    0 <= get_city_index (g_cities g') a < g_city_count g' /\
    0 <= get_city_index (g_cities g') b < g_city_count g' /\
    g_di g' (get_city_index (g_cities g') a) (get_city_index (g_cities g') b) = v /\
    g_di g' (get_city_index (g_cities g') b) (get_city_index (g_cities g') a) = v /\
    (forall x, In x (g_cities g) ->
               get_city_index (g_cities g') x = get_city_index (g_cities g) x) /\
    (forall i j,
        ~ (i = get_city_index (g_cities g') a /\ j = get_city_index (g_cities g') b) ->
        ~ (i = get_city_index (g_cities g') b /\ j = get_city_index (g_cities g') a) ->
        g_di g' i j = g_di g i j).
Proof. exact (read_line_edge g a b v). Qed.

Lemma read_line_stores_edge_witness :
  exists g',
    read_line (edge_text "Bern" "Basel" (print_u64 95)) empty_graph = Ok (inr g') /\
    graph_ok g' /\
    0 <= get_city_index (g_cities g') "Bern" < g_city_count g' /\
    0 <= get_city_index (g_cities g') "Basel" < g_city_count g' /\
    g_di g' (get_city_index (g_cities g') "Bern")
            (get_city_index (g_cities g') "Basel") = 95 /\
    g_di g' (get_city_index (g_cities g') "Basel")
            (get_city_index (g_cities g') "Bern") = 95 /\
    (forall x, In x (g_cities empty_graph) ->
               get_city_index (g_cities g') x =
               get_city_index (g_cities empty_graph) x) /\
    (forall i j,
        ~ (i = get_city_index (g_cities g') "Bern" /\
           j = get_city_index (g_cities g') "Basel") ->
        ~ (i = get_city_index (g_cities g') "Basel" /\
           j = get_city_index (g_cities g') "Bern") ->
        g_di g' i j = g_di empty_graph i j).
Proof.
  apply (read_line_stores_edge empty_graph "Bern" "Basel" 95 empty_graph_ok);
    [reflexivity | reflexivity | unfold NO_PATH; lia | vm_compute; discriminate].
Defined.

(** ** One line of the file at a time *)

Lemma string_app_assoc (s1 s2 s3 : string) :
  ((s1 ++ s2) ++ s3 = s1 ++ (s2 ++ s3))%string.
Proof. induction s1 as [|c s1 IH]; simpl; [reflexivity|rewrite IH; reflexivity]. Qed.

Lemma string_length_app (s1 s2 : string) :
  String.length (s1 ++ s2) = (String.length s1 + String.length s2)%nat.
Proof. induction s1 as [|c s1 IH]; simpl; [reflexivity|rewrite IH; reflexivity]. Qed.

(** [fgets] hands over a whole line when it fits the buffer. *)
Lemma fgets_line (body rest : string) :
  forall n,
    has_char newline body = false -> (String.length body < n)%nat ->
    fgets n (body ++ String newline rest) = ((body ++ String newline EmptyString)%string, rest).
Proof.
  induction body as [|c body IH]; intros n Hc Hlen.
  - destruct n as [|n]; [simpl in Hlen; lia|]. reflexivity.
  - simpl in Hc, Hlen. apply orb_false_elim in Hc. destruct Hc as [Hx Hb].
    destruct n as [|n]; [lia|].
    cbn [String.append fgets]. rewrite Hx, IH by (auto; lia). reflexivity.
Qed.

Lemma read_file_line (fuel : nat) (file line rest : string) (g : graph) :
  fgets 99 file = (line, rest) -> line <> EmptyString ->
  read_file (S fuel) file g =
  bind (read_line line g)
       (fun step => match step with
                    | inl r => Ok (inl r)
                    | inr g' => read_file fuel rest g'
                    end).
Proof.
  intros E Hne. rewrite read_file_step, E.
  destruct line; [contradiction|reflexivity].
Qed.

Lemma read_file_edge_line (g : graph) (a b : string) (v : Z) :
  graph_ok g ->
  field_ok "-"%char a = true ->
  field_ok ":"%char b = true ->
  has_char newline a = false ->
  has_char newline b = false ->
  0 <= v <= NO_PATH ->
  (String.length (edge_text a b (print_u64 v)) <= 99)%nat ->
  g_city_count g + 2 <= MAX_CITIES ->
  exists g',
    read_line (edge_text a b (print_u64 v)) g = Ok (inr g') /\
    forall fuel rest,
      read_file (S fuel) (edge_text a b (print_u64 v) ++ rest) g =
      read_file fuel rest g'.
Proof.
  intros Hok Ha Hb Hna Hnb Hv Hlen Hroom.
  destruct (read_line_edge g a b v Hok Ha Hb Hv Hroom) as (g' & Hline & _).
  exists g'. split; [exact Hline|]. intros fuel rest.
  destruct (field_ok_spec _ _ Ha) as ((xa & a' & Ea) & _).
  set (body := (a ++ "-" ++ b ++ ": " ++ print_u64 v)%string).
  assert (Etext : edge_text a b (print_u64 v) =
                  (body ++ String newline EmptyString)%string).
  { unfold body, edge_text, lf. rewrite !string_app_assoc. reflexivity. }
  assert (Eg : fgets 99 (edge_text a b (print_u64 v) ++ rest) =
               (edge_text a b (print_u64 v), rest)).
  { rewrite Etext, string_app_assoc. cbn [String.append].
    apply fgets_line.
    - unfold body.
      rewrite !has_char_app, Hna, Hnb, has_char_print by reflexivity. reflexivity.
    - rewrite Etext, string_length_app in Hlen. simpl in Hlen. lia. }
  rewrite (read_file_line fuel _ _ _ g Eg).
  - rewrite Hline. reflexivity.
  - unfold edge_text. rewrite Ea. discriminate.
Qed.

(** X11.  A well-formed line [a-b: d] of at most 99 characters, newline
    included, at the head of the file is taken by one round of the read loop:
    the loop stores that edge and goes on with the rest of the file. *)
Theorem read_file_consumes_line (g : graph) (a b : string) (v : Z) :
  graph_ok g ->
  field_ok "-"%char a = true ->
  field_ok ":"%char b = true ->
  has_char newline a = false ->
  has_char newline b = false ->
  0 <= v <= NO_PATH ->
  (String.length (edge_text a b (print_u64 v)) <= 99)%nat ->
  g_city_count g + 2 <= MAX_CITIES ->
  exists g',
    read_line (edge_text a b (print_u64 v)) g = Ok (inr g') /\
    forall fuel rest,
      read_file (S fuel) (edge_text a b (print_u64 v) ++ rest) g =
      read_file fuel rest g'.
Proof. exact (read_file_edge_line g a b v). Qed.

Lemma read_file_consumes_line_witness :
  exists g',
    read_line (edge_text "Bern" "Basel" (print_u64 95)) empty_graph = Ok (inr g') /\
    forall fuel rest,
      read_file (S fuel) (edge_text "Bern" "Basel" (print_u64 95) ++ rest) empty_graph =
      read_file fuel rest g'.
Proof.
  apply (read_file_consumes_line empty_graph "Bern" "Basel" 95 empty_graph_ok);
    [reflexivity | reflexivity | reflexivity | reflexivity
     | unfold NO_PATH; lia | vm_compute; lia | vm_compute; discriminate].
Defined.

(** ** A file of well-formed lines *)






(** ** The route the reconstruction loop emits *)

Section Route.

Variable city_count : Z.
Variable di : Z -> Z -> Z.
Hypothesis Hcount : 0 <= city_count < 64.

Lemma follows_cons (c m a d b : Z) (rest : list (Z * Z * Z)) :
  follows city_count di c m ((a, d, b) :: rest) = true <->
  a = c /\ d = di c b /\ 0 <= b < city_count /\ candidate di c m b = true /\
  follows city_count di b (mark m b) rest = true.
Proof.
  cbn [follows]. rewrite !andb_true_iff, !Z.eqb_eq, Z.leb_le, Z.ltb_lt. tauto.
Qed.

Lemma follows_app (edges1 : list (Z * Z * Z)) :
  forall c m edges2,
    follows city_count di c m (edges1 ++ edges2) = true <->
    follows city_count di c m edges1 = true /\
    follows city_count di (fst (walk_end c m edges1)) (snd (walk_end c m edges1))
      edges2 = true.
Proof.
  induction edges1 as [|[[a d] b] rest IH]; intros c m edges2.
  - simpl. tauto.
  - rewrite <- app_comm_cons, !follows_cons, IH. cbn [walk_end]. tauto.
Qed.

Lemma walk_end_app (edges1 : list (Z * Z * Z)) :
  forall c m edges2,
    walk_end c m (edges1 ++ edges2) =
    walk_end (fst (walk_end c m edges1)) (snd (walk_end c m edges1)) edges2.
Proof.
  induction edges1 as [|[[a d] b] rest IH]; intros c m edges2; simpl;
    [reflexivity|apply IH].
Qed.

(** Over consistent tables the loop emits a route. *)
Lemma reconstruct_follows (s : tables) :
  consistent city_count di s ->
  forall fuel w w',
    entry_done city_count di s (w_current w) (w_visited w) ->
    reconstruct di fuel s w = Ok w' ->
    exists new,
      w_edges w' = w_edges w ++ new /\
      follows city_count di (w_current w) (w_visited w) new = true /\
      walk_end (w_current w) (w_visited w) new = (w_current w', w_visited w').
Proof.
  intros Cs. induction fuel as [|fuel IH]; intros w w' Hd H; [discriminate|].
  simpl in H. destruct w as [c m T es]. simpl in *. unfold entry_done in Hd.
  destruct (Z.eqb_spec (next_city s c m) (-1)) as [E|E].
  - inversion H; subst. exists []. simpl. rewrite app_nil_r. auto.
  - assert (Hch : choice city_count di c m <> -1) by congruence.
    assert (Hm : m <> full_mask city_count)
      by (intros ->; destruct (value_full city_count di Hcount c); congruence).
    destruct (choice_spec city_count di Hcount c m Hm)
      as [(_ & E2 & _)|(Hr & Hc & _)]; [congruence|].
    assert (Hdp : dp s c m <> NO_PATH).
    { destruct (cons_entry _ _ _ Cs c m) as [[_ H0]|[H0 _]]; [congruence|].
      rewrite H0. apply choice_some_cost; assumption. }
    pose proof (cons_succ _ _ _ Cs c m Hdp) as Hnext.
    rewrite Hd in *.
    apply IH in H; [|exact Hnext].
    destruct H as (new & Ee & Hf & Hend). simpl in *.
    exists ((c, di c (choice city_count di c m), choice city_count di c m) :: new).
    split; [rewrite Ee, <- app_assoc; reflexivity|].
    split; [|exact Hend].
    apply follows_cons. repeat split; auto; lia.
Qed.

(** What a route visits. *)
Lemma follows_targets (edges : list (Z * Z * Z)) :
  forall c m,
    follows city_count di c m edges = true ->
    NoDup (targets edges) /\
    (forall t, In t (targets edges) -> 0 <= t < city_count /\ Z.testbit m t = false) /\
    (forall k, Z.testbit (snd (walk_end c m edges)) k = true <->
               Z.testbit m k = true \/ In k (targets edges)) /\
    route_ok di c (targets edges) = true /\
    route_cost di c (targets edges) = edge_sum edges.
Proof.
  induction edges as [|[[a d] b] rest IH]; intros c m H.
  - simpl. repeat split; auto; try constructor; try tauto; try contradiction.
  - apply follows_cons in H. destruct H as (-> & -> & Hb & Hc & Hrest).
    apply (candidate_spec city_count di Hcount c m b (proj2 (in_upto _ _) Hb)) in Hc.
    destruct Hc as [Hbit Hreal].
    destruct (IH b (mark m b) Hrest) as (Hnd & Hin & Hend & Hok & Hcost).
    cbn [targets map snd walk_end route_ok route_cost edge_sum]. fold (targets rest).
    assert (Hmark : forall t, Z.testbit (mark m b) t = Z.testbit m t || (b =? t))
      by (intros t; apply mark_testbit; lia).
    split.
    { constructor; [|exact Hnd]. intros Hb'. apply Hin in Hb'.
      rewrite Hmark, Z.eqb_refl, orb_true_r in Hb'. destruct Hb'. discriminate. }
    split.
    { intros t [<-|Ht]; [auto|]. destruct (Hin t Ht) as [Hr Ht'].
      rewrite Hmark in Ht'. apply orb_false_elim in Ht'. tauto. }
    split.
    { intros k. rewrite Hend, Hmark, orb_true_iff, Z.eqb_eq. simpl. tauto. }
    split.
    { rewrite Hok, andb_true_r. apply negb_true_iff, Z.eqb_neq. exact Hreal. }
    rewrite Hcost. reflexivity.
Qed.


(** [solve_tsp_run] with the route its walk follows. *)
Lemma solve_tsp_run_route :
  1 <= city_count <= 60 ->
  exists route,
    solve_tsp_run city_count di = Ok (cost_to_go city_count di 0 1, route) /\
    match route with
    | None => cost_to_go city_count di 0 1 = NO_PATH
    | Some w =>
        cost_to_go city_count di 0 1 <> NO_PATH /\
        choice city_count di (w_current w) (w_visited w) = -1 /\
        w_total_cost w = wrap64 (edge_sum (w_edges w)) /\
        (w_visited w = full_mask city_count ->
         w_total_cost w = cost_to_go city_count di 0 1) /\
        follows city_count di 0 1 (w_edges w) = true /\
        walk_end 0 1 (w_edges w) = (w_current w, w_visited w)
    end.
Proof.
  intros Hfit.
  destruct (solve_tsp_run_spec city_count di Hcount Hfit) as (route & Er & Hroute).
  exists route. split; [exact Er|].
  destruct route as [w|]; [|exact Hroute].
  destruct Hroute as (Hne & Hch & Hsum & Hfull).
  split; [exact Hne|]. split; [exact Hch|]. split; [exact Hsum|].
  split; [exact Hfull|].
  unfold solve_tsp_run, root in Er.
  rewrite (alloc_tables_fit city_count Hcount Hfit) in Er. cbn [bind] in Er.
  destruct (Z.ltb_spec city_count 0); [lia|].
  destruct (Z.eqb_spec city_count 0); [lia|].
  pose proof (unvisited_le city_count 1) as Hu.
  destruct (tsp_dp_refines city_count di Hcount (enough_fuel city_count) 0 1 init_tables)
    as (s & Et & Cs & Hd); [unfold enough_fuel; lia|apply consistent_init|].
  rewrite Et in Er. cbn [bind] in Er.
  destruct (cost_to_go city_count di 0 1 =? NO_PATH); [discriminate|].
  destruct (reconstruct di (enough_fuel city_count) s start_walk) as [w0|] eqn:Ew;
    cbn [bind] in Er; [|discriminate].
  inversion Er; subst w0.
  destruct (reconstruct_follows s Cs _ start_walk _ Hd Ew) as (new & Ee & Hf & Hend).
  simpl in Ee, Hf, Hend. rewrite Ee. auto.
Qed.




End Route.

Lemma testbit_one (t : Z) : 0 <= t -> Z.testbit 1 t = false -> 1 <= t.
Proof.
  intros Ht H. destruct (Z.eq_dec t 0) as [->|]; [discriminate H|lia].
Qed.

(** X12.  Whenever [solve_tsp] prints a route, the emitted edges form one
    walk from city 0: each edge starts where the one before ended, is a real
    edge printed with the cost the distance table gives it, and leads to a city
    not visited before; no city occurs twice, so at most [city_count - 1] edges
    are printed, and the loop's final city and mask are those of the walk. *)
Theorem walk_is_a_route (city_count : Z) (di : Z -> Z -> Z) (r : Z) (w : walk) :
  1 <= city_count < 64 ->
  solve_tsp_run city_count di = Ok (r, Some w) ->
  follows city_count di 0 1 (w_edges w) = true /\
  walk_end 0 1 (w_edges w) = (w_current w, w_visited w) /\
  NoDup (0 :: targets (w_edges w)) /\
  (forall t, In t (targets (w_edges w)) -> 1 <= t < city_count) /\
  Z.of_nat (List.length (w_edges w)) <= city_count - 1.
Proof.
  intros Hn H.
  assert (Hcount : 0 <= city_count < 64) by lia.
  pose proof (solve_tsp_run_ok_range city_count di Hcount _ H) as Hfit.
  destruct (solve_tsp_run_route city_count di Hcount Hfit) as (route & Er & Hroute).
  rewrite Er in H. inversion H; subst. clear H.
  destruct Hroute as (_ & _ & _ & _ & Hf & Hend).
  destruct (follows_targets city_count di Hcount _ _ _ Hf) as (Hnd & Hin & _).
  assert (Hrange : forall t, In t (targets (w_edges w)) -> 1 <= t < city_count).
  { intros t Ht. destruct (Hin t Ht) as [Hr Hb].
    pose proof (testbit_one t ltac:(lia) Hb). lia. }
  assert (Hnd0 : NoDup (0 :: targets (w_edges w))).
  { constructor; [|exact Hnd]. intros H0. apply Hrange in H0. lia. }
  repeat split; auto; try (apply Hrange; assumption).
  assert (Hlen : (List.length (0%Z :: targets (w_edges w)) <=
                  List.length (upto city_count))%nat).
  { apply NoDup_incl_length; [exact Hnd0|].
    intros t [<-|Ht]; apply in_upto; [lia|]. apply Hrange in Ht. lia. }
  rewrite upto_length in Hlen. unfold targets in Hlen.
  simpl in Hlen. rewrite length_map in Hlen. lia.
Qed.

Lemma walk_is_a_route_witness :
  follows 3 di_triangle 0 1 [(0, 5, 1); (1, 10, 2)] = true /\
  walk_end 0 1 [(0, 5, 1); (1, 10, 2)] = (2, 7) /\
  NoDup (0 :: targets [(0, 5, 1); (1, 10, 2)]) /\
  (forall t, In t (targets [(0, 5, 1); (1, 10, 2)]) -> 1 <= t < 3) /\
  Z.of_nat (List.length [(0, 5, 1); (1, 10, 2)]) <= 3 - 1.
Proof.
  apply (walk_is_a_route 3 di_triangle 15
           {| w_current := 2; w_visited := 7; w_total_cost := 15;
              w_edges := [(0, 5, 1); (1, 10, 2)] |});
    [lia | vm_compute; reflexivity].
Defined.








(** * The claims *)

(** ** C1 *)

(** C1, as amended.  For 1 to 63 cities whose real edge costs are at most [B]
    with [city_count * B] below NO_PATH, the root call [tsp_dp(0, 1)] on the
    freshly initialised tables returns a value that is at most the summed edge
    cost of every complete visiting order from city 0 along real edges, hence
    NO_PATH only if there is none; and if no partial route the search follows
    is a dead end, the value is the summed cost of such an order, that is, the
    minimum over all orderings of the remaining cities. *)
Theorem root_minimum_within_bounds (city_count : Z) (di : Z -> Z -> Z) (B : Z) :
  1 <= city_count < 64 ->
  costs_within city_count di B ->
  exists r s,
    root city_count di init_tables = Ok (r, s) /\
    (forall p, valid_order city_count di p ->
               r <= route_cost di 0 p /\ r <> NO_PATH) /\
    (no_dead_end city_count di ->
     exists p, valid_order city_count di p /\ route_cost di 0 p = r).
Proof.
  intros Hn HB.
  assert (Hcount : 0 <= city_count < 64) by lia.
  pose proof (unvisited_le city_count 1) as Hu.
  destruct (tsp_dp_refines city_count di Hcount (enough_fuel city_count) 0 1 init_tables)
    as (s & Er & _); [unfold enough_fuel; lia | apply consistent_init|].
  exists (cost_to_go city_count di 0 1), s. split; [exact Er|].
  assert (Hone : 0 <= 1 < 2 ^ city_count).
  { split; [lia|]. change 1 with (2 ^ 0) at 1. apply Z.pow_lt_mono_r; lia. }
  split.
  - intros p [Hord Hok]. apply ordering_completes in Hord.
    destruct (cost_to_go_lower city_count di Hcount B HB p 0 1 Hone Hord Hok)
      as [Hle [H0 Hup]].
    split; [exact Hle|].
    pose proof (completes_length city_count di Hcount 1 p Hord) as Hlen.
    destruct HB as [_ HNB]. unfold NO_PATH in *.
    destruct (Z_lt_le_dec B 0); nia.
  - intros Hnde.
    destruct (cost_to_go_attained city_count di Hcount B ltac:(lia) HB Hnde
                (unvisited city_count 1) 0 1 (reached_root _ _) (le_n _))
      as (p & Hcomp & Hok & Hcost).
    exists p. split; [|exact Hcost]. split; [|exact Hok].
    apply ordering_completes; assumption.
Qed.

Lemma root_minimum_within_bounds_witness :
  exists r p, valid_order 3 di_triangle p /\ route_cost di_triangle 0 p = r /\
              forall q, valid_order 3 di_triangle q -> r <= route_cost di_triangle 0 q.
Proof.
  destruct (root_minimum_within_bounds 3 di_triangle 10 ltac:(lia) di_triangle_within)
    as (r & s & _ & Hlow & Hatt).
  destruct (Hatt (complete_no_dead_end 3 di_triangle ltac:(lia) ltac:(lia)
                    di_triangle_complete)) as (p & Hp & Hcost).
  exists r, p. split; [exact Hp|]. split; [exact Hcost|].
  intros q Hq. exact (proj1 (Hlow q Hq)).
Defined.

(** C1 as stated fails on A-B: 2^63, B-C: 2^63: the one complete visiting
    order A, B, C costs 2^64, and the root call returns 0. *)
Lemma root_minimum_wraps :
  (exists s, root 3 di_wrap init_tables = Ok (0, s)) /\
  valid_order 3 di_wrap [1; 2] /\
  forall p, valid_order 3 di_wrap p -> route_cost di_wrap 0 p = 2 ^ 64.
Proof.
  split; [eexists; vm_compute; reflexivity|].
  split; [split; [apply ordering_3_12 | reflexivity]|].
  intros p [Hord Hok]. destruct (ordering_3 p Hord) as [->| ->].
  - reflexivity.
  - vm_compute in Hok. discriminate.
Qed.

(** The condition on dead ends cannot be dropped.  On A-B: 5, A-C: 100,
    C-B: 100, B-D: 100 the costs are small and the complete order A, C, B, D
    costs 300, but the states behind A -> B are dead ends whose NO_PATH is
    added to the edge cost; the root call returns 104 and the walk is A, B, C. *)
Remark dead_end_undercuts_valid_order :
  parse input_detour =
    Ok (inr {| g_cities := ["A"; "B"; "C"; "D"]%string; g_di := di_detour |}) /\
  costs_within 4 di_detour 100 /\
  valid_order 4 di_detour [2; 1; 3] /\
  route_cost di_detour 0 [2; 1; 3] = 300 /\
  solve_tsp_run 4 di_detour =
    Ok (104, Some {| w_current := 2; w_visited := 7; w_total_cost := 105;
                     w_edges := [(0, 5, 1); (1, 100, 2)] |}).
Proof.
  split; [vm_compute; reflexivity|].
  split.
  { split; [|reflexivity]. intros i j.
    unfold di_detour, di_of. simpl. unfold upd.
    upd_cases; try (right; lia). left. reflexivity. }
  split.
  { split; [|reflexivity]. split.
    - repeat constructor; simpl; intuition lia.
    - intros k. simpl. lia. }
  split; vm_compute; reflexivity.
Qed.

(** ** C2 *)




(** ** C3 *)

(** C3, as amended.  On tables the search has produced, a call for any state
    returns the state's cost, the same on every visit.  An entry holding a cost
    other than NO_PATH is never written again: a call leaves every such entry
    as it was, and a call for a state that has one returns it without touching
    the tables or running the candidate loop.  Every state whose cost is not
    NO_PATH has had its candidate loop run at most once.  A state whose cost is
    NO_PATH has NO_PATH in its entry before and after the call, which is also
    the mark of an empty entry, and each call for it runs its candidate loop
    once more. *)
Theorem memo_entries_permanent (city_count : Z) (di : Z -> Z -> Z) :
  0 <= city_count < 64 ->
  forall fuel c m s,
    (unvisited city_count m < fuel)%nat ->
    consistent city_count di s ->
    exists s',
      tsp_dp city_count di fuel c m s = Ok (cost_to_go city_count di c m, s') /\
      consistent city_count di s' /\
      kept s s' /\
      (dp s c m <> NO_PATH ->
       s' = s /\ dp s c m = cost_to_go city_count di c m) /\
      (forall c' m', cost_to_go city_count di c' m' <> NO_PATH ->
                     (runs s' c' m' <= 1)%nat) /\
      (cost_to_go city_count di c m = NO_PATH ->
       dp s c m = NO_PATH /\ dp s' c m = NO_PATH /\
       runs s' c m = S (runs s c m)).
Proof.
  intros Hcount fuel c m s Hf Cs.
  destruct (tsp_dp_refines city_count di Hcount fuel c m s Hf Cs) as (s' & Er & Cs' & _).
  exists s'. split; [exact Er|]. split; [exact Cs'|].
  split; [exact (proj1 (tsp_dp_frame city_count di Hcount _ _ _ _ _ _ Er))|].
  split; [|split; [exact (cons_once _ _ _ Cs')|]].
  2:{ intros Hno.
      assert (Hm : m <> full_mask city_count).
      { intros ->. rewrite (proj1 (value_full city_count di Hcount c)) in Hno.
        discriminate. }
      assert (Hdp : dp s c m = NO_PATH)
        by (destruct (cons_entry _ _ _ Cs c m) as [[H _]|[H _]]; congruence).
      destruct (tsp_dp_runs_again city_count di Hcount _ _ _ _ _ _ Er Hm Hdp)
        as [Hruns Hst].
      split; [exact Hdp|]. split; [congruence|exact Hruns]. }
  intros Hdp. destruct fuel as [|fuel]; [lia|]. simpl in Er.
  destruct (64 <=? city_count); [discriminate|].
  destruct (m =? full_mask city_count).
  - inversion Er; subst.
    destruct (cons_entry _ _ _ Cs c m) as [[H _]|[H _]];
      [contradiction|split; congruence].
  - destruct (Z.eqb_spec (dp s c m) NO_PATH); [contradiction|].
    simpl in Er. inversion Er; subst.
    destruct (cons_entry _ _ _ Cs c m) as [[H _]|[H _]];
      [contradiction|split; congruence].
Qed.

Lemma memo_entries_permanent_witness :
  exists r s,
    root 5 di_twice init_tables = Ok (r, s) /\
    (dp s 2 7 <> NO_PATH /\
     tsp_dp 5 di_twice 6 2 7 s = Ok (dp s 2 7, s) /\
     runs s 2 7 = 1%nat) /\
    (cost_to_go 5 di_twice 3 15 = NO_PATH /\
     exists s',
       tsp_dp 5 di_twice 6 3 15 s = Ok (NO_PATH, s') /\
       dp s' 3 15 = NO_PATH /\ runs s' 3 15 = S (runs s 3 15)).
Proof.
  assert (Hcount : 0 <= 5 < 64) by lia.
  destruct (tsp_dp_refines 5 di_twice Hcount (enough_fuel 5) 0 1 init_tables)
    as (s & Er & Cs & _); [vm_compute; lia | apply consistent_init |].
  exists (cost_to_go 5 di_twice 0 1), s. split; [exact Er|].
  assert (Es : exists s0, s = s0 /\ dp s0 2 7 = 0 /\ runs s0 2 7 = 1%nat).
  { vm_compute in Er. injection Er as <-. eexists. split; [reflexivity|].
    split; vm_compute; reflexivity. }
  destruct Es as (s0 & -> & Edp & Eruns).
  split.
  - destruct (memo_entries_permanent 5 di_twice Hcount 6%nat 2 7 s0
                ltac:(vm_compute; lia) Cs)
      as (s' & Et & _ & _ & Hhit & _).
    assert (Hne : dp s0 2 7 <> NO_PATH) by (rewrite Edp; discriminate).
    destruct (Hhit Hne) as [-> Ev].
    split; [exact Hne|]. split; [rewrite Ev; exact Et|exact Eruns].
  - assert (Hno : cost_to_go 5 di_twice 3 15 = NO_PATH) by (vm_compute; reflexivity).
    destruct (memo_entries_permanent 5 di_twice Hcount 6%nat 3 15 s0
                ltac:(vm_compute; lia) Cs)
      as (s' & Et & _ & _ & _ & _ & Hdead).
    destruct (Hdead Hno) as (_ & Hst & Hruns).
    split; [exact Hno|]. exists s'. rewrite Hno in Et. auto.
Defined.

(** C3 as stated fails on the five cities A-B, A-C, B-C, B-D, C-D, A-E: the
    state (D, {A,B,C,D}) is reached along A,B,C,D and along A,C,B,D, its value
    is NO_PATH, and its candidate loop runs both times. *)
Lemma dead_end_state_computed_twice :
  exists r s, root 5 di_twice init_tables = Ok (r, s) /\
              dp s 3 15 = NO_PATH /\ runs s 3 15 = 2%nat.
Proof.
  eexists. eexists. split; [vm_compute; reflexivity|].
  split; vm_compute; reflexivity.
Qed.

(** ** C4 *)

(** C4, as amended.  When the candidate loop of a state runs (the state is
    not complete and its entry holds NO_PATH), the candidates, which are the
    cities below [city_count] that the mask leaves unvisited and that a real
    edge joins to the current city, are tried in ascending index order, and the
    incumbent, NO_PATH at first, is replaced on a strictly smaller cost only.
    The cost of candidate [n] is [di[current][n]] plus the value the recursive
    call for [n] returns, modulo 2^64.  So no city is stored in [next_city]
    exactly when no candidate costs less than NO_PATH, and then the value of
    the state is NO_PATH; otherwise the city stored is a candidate, its cost is
    the value of the state and is below NO_PATH, no candidate costs less, and
    every candidate of smaller index costs strictly more. *)
Theorem first_minimum_wins (city_count : Z) (di : Z -> Z -> Z) :
  0 <= city_count < 64 ->
  forall fuel c m s,
    (unvisited city_count m < fuel)%nat ->
    consistent city_count di s ->
    m <> full_mask city_count ->
    dp s c m = NO_PATH ->
    exists min_cost s',
      tsp_dp city_count di fuel c m s = Ok (min_cost, s') /\
      dp s' c m = min_cost /\
      (forall n, 0 <= n < city_count ->
                 Z.testbit m n = false -> di c n <> NO_PATH ->
                 forall s0, consistent city_count di s0 ->
                   exists r s1,
                     tsp_dp city_count di (pred fuel) n (mark m n) s0 = Ok (r, s1) /\
                     candidate_cost city_count di c m n = wrap64 (di c n + r)) /\
      (next_city s' c m = -1 <->
       forall n, 0 <= n < city_count ->
                 Z.testbit m n = false -> di c n <> NO_PATH ->
                 candidate_cost city_count di c m n = NO_PATH) /\
      (next_city s' c m = -1 -> min_cost = NO_PATH) /\
      (next_city s' c m <> -1 ->
       0 <= next_city s' c m < city_count /\
       Z.testbit m (next_city s' c m) = false /\
       di c (next_city s' c m) <> NO_PATH /\
       candidate_cost city_count di c m (next_city s' c m) = min_cost /\
       min_cost < NO_PATH /\
       (forall n, 0 <= n < city_count ->
                  Z.testbit m n = false -> di c n <> NO_PATH ->
                  min_cost <= candidate_cost city_count di c m n) /\
       (forall n, 0 <= n < next_city s' c m ->
                  Z.testbit m n = false -> di c n <> NO_PATH ->
                  min_cost < candidate_cost city_count di c m n)).
Proof.
  intros Hcount fuel c m s Hf Cs Hm Hdp.
  destruct (tsp_dp_refines city_count di Hcount fuel c m s Hf Cs) as (s' & Er & Cs' & Hd).
  exists (cost_to_go city_count di c m), s'. split; [exact Er|].
  destruct (tsp_dp_runs_again city_count di Hcount _ _ _ _ _ _ Er Hm Hdp) as [_ E1].
  split; [exact E1|].
  assert (Hcand : forall n, 0 <= n < city_count ->
            Z.testbit m n = false -> di c n <> NO_PATH -> candidate di c m n = true).
  { intros n Hn Hb Hreal.
    apply (candidate_spec city_count di Hcount c m n (proj2 (in_upto _ _) Hn)). auto. }
  split.
  { intros n Hn Hb Hreal s0 Cs0.
    pose proof (unvisited_mark city_count di Hcount m n (proj2 (in_upto _ _) Hn) Hb) as Hdec.
    destruct (tsp_dp_refines city_count di Hcount (pred fuel) n (mark m n) s0
                ltac:(lia) Cs0) as (s1 & E & _).
    exists (cost_to_go city_count di n (mark m n)), s1. split; [exact E|reflexivity]. }
  unfold entry_done in Hd. rewrite Hd.
  destruct (choice_spec city_count di Hcount c m Hm)
    as [(Ec & En & Hall)|(Hr & Hc & Eb & Hlt & Hbefore & Hafter)].
  - split; [split; [intros _ n Hn Hb Hreal; apply Hall; auto|intros _; exact En]|].
    split; [intros _; exact Ec|]. intros Hne. contradiction.
  - pose proof Hc as Hc'.
    apply (candidate_spec city_count di Hcount c m _ (proj2 (in_upto _ _) Hr)) in Hc'.
    destruct Hc' as [Hb Hreal].
    split.
    { split; [intros E; lia|]. intros Hall.
      specialize (Hall _ Hr Hb Hreal). lia. }
    split; [intros E; lia|]. intros _.
    split; [exact Hr|]. split; [exact Hb|]. split; [exact Hreal|].
    split; [exact Eb|]. split; [exact Hlt|].
    split.
    + intros n Hn Hbn Hrn.
      apply (cost_to_go_le_candidate city_count di Hcount c m n Hn). auto.
    + intros n Hn Hbn Hrn. apply Hbefore; [exact Hn|]. apply Hcand; auto; lia.
Qed.

Lemma first_minimum_wins_witness :
  exists s',
    tsp_dp 3 di_triangle 4 0 1 init_tables = Ok (15, s') /\
    dp s' 0 1 = 15 /\
    next_city s' 0 1 = 1 /\
    (Z.testbit 1 1 = false /\ di_triangle 0 1 <> NO_PATH /\
     candidate_cost 3 di_triangle 0 1 1 = 15) /\
    (forall n, 0 <= n < 3 ->
               Z.testbit 1 n = false -> di_triangle 0 n <> NO_PATH ->
               15 <= candidate_cost 3 di_triangle 0 1 n) /\
    (forall s0, consistent 3 di_triangle s0 ->
       exists r s1,
         tsp_dp 3 di_triangle 3 2 (mark 1 2) s0 = Ok (r, s1) /\
         candidate_cost 3 di_triangle 0 1 2 = wrap64 (di_triangle 0 2 + r)).
Proof.
  destruct (first_minimum_wins 3 di_triangle ltac:(lia) 4%nat 0 1 init_tables
              ltac:(vm_compute; lia) consistent_init_3
              ltac:(vm_compute; discriminate) eq_refl)
    as (min_cost & s' & Er & Edp & Hsub & _ & _ & Hbest).
  assert (Es : exists s0, s' = s0 /\ min_cost = 15 /\ next_city s0 0 1 = 1).
  { vm_compute in Er. injection Er as <- <-. eexists. split; [reflexivity|].
    split; vm_compute; reflexivity. }
  destruct Es as (s0 & -> & -> & Enext).
  exists s0. split; [exact Er|]. split; [exact Edp|]. split; [exact Enext|].
  destruct (Hbest ltac:(rewrite Enext; discriminate))
    as (_ & Hb & Hreal & Ecost & _ & Hall & _).
  rewrite Enext in Hb, Hreal, Ecost.
  split; [auto|]. split; [exact Hall|].
  intros s1 Cs1.
  exact (Hsub 2 ltac:(lia) eq_refl ltac:(vm_compute; discriminate) s1 Cs1).
Defined.

(** C4 as stated fails on A-B: 2^64 - 2, B-C: 1.  At the root state city B is
    the one candidate; its cost, 2^64 - 2 plus the subresult 1, is NO_PATH, so
    B is the candidate of least index with the least candidate cost, and the
    loop records no city. *)
Lemma least_candidate_not_recorded :
  exists s',
    root 3 di_collapse init_tables = Ok (NO_PATH, s') /\
    Z.testbit 1 1 = false /\ di_collapse 0 1 <> NO_PATH /\
    candidate di_collapse 0 1 1 = true /\
    candidate_cost 3 di_collapse 0 1 1 = NO_PATH /\
    (forall n, 0 <= n < 3 -> candidate di_collapse 0 1 n = true -> n = 1) /\
    next_city s' 0 1 = -1.
Proof.
  eexists. split; [vm_compute; reflexivity|].
  split; [reflexivity|]. split; [vm_compute; discriminate|].
  split; [reflexivity|]. split; [vm_compute; reflexivity|].
  split; [|vm_compute; reflexivity].
  intros n Hn Hc.
  assert (E : n = 0 \/ n = 1 \/ n = 2) by lia.
  destruct E as [-> |[-> | ->]]; [vm_compute in Hc; discriminate | reflexivity
                                  | vm_compute in Hc; discriminate].
Qed.

(** ** C5 *)

(** C5, evaluated on A-B: 5, C-D: 1.  The root result is 4, not NO_PATH; the
    reconstruction loop emits the one edge A -> B and then reads -1 at
    (B, {A,B}) with C and D unvisited: one edge instead of three, and the mask
    3 instead of the full mask 15. *)
Theorem walk_stops_early_on_split_graph :
  parse input_split =
    Ok (inr {| g_cities := ["A"; "B"; "C"; "D"]%string; g_di := di_split |}) /\
  solve_tsp_run 4 di_split =
    Ok (4, Some {| w_current := 1; w_visited := 3; w_total_cost := 5;
                   w_edges := [(0, 5, 1)] |}) /\
  4 <> NO_PATH /\
  full_mask 4 = 15 /\
  (exists s, root 4 di_split init_tables = Ok (4, s) /\ next_city s 1 3 = -1) /\
  run input_split =
    Ok {| exit_code := 0;
          stdout := [msg_header; "A -( 5 )-> B"%string; "Total cost: 5"%string];
          stderr := [] |}.
Proof.
  split; [exact parse_split|].
  split; [vm_compute; reflexivity|].
  split; [discriminate|].
  split; [reflexivity|].
  split; [|vm_compute; reflexivity].
  eexists. split; vm_compute; reflexivity.
Qed.

(** ** C6 *)

(** C6, evaluated on A-B: 5, C-C: 1.  City C has no edge to another city and
    no complete visiting order exists, yet the program prints a route and a
    total and exits with code 0. *)
Theorem isolated_city_gets_numeric_answer :
  parse input_isolated =
    Ok (inr {| g_cities := ["A"; "B"; "C"]%string; g_di := di_isolated |}) /\
  (forall j, j <> 2 -> di_isolated 2 j = NO_PATH) /\
  (forall p, ~ valid_order 3 di_isolated p) /\
  run input_isolated =
    Ok {| exit_code := 0;
          stdout := [msg_header; "A -( 5 )-> B"%string; "Total cost: 5"%string];
          stderr := [] |}.
Proof.
  split; [exact parse_isolated|].
  split.
  { intros j Hj. unfold di_isolated, di_of. simpl. unfold upd.
    destruct (Z.eqb_spec j 2); [contradiction|].
    destruct (Z.eqb_spec j 0), (Z.eqb_spec j 1); reflexivity. }
  split; [|vm_compute; reflexivity].
  intros p [Hord Hok]. destruct (ordering_3 p Hord) as [E|E]; subst p;
    vm_compute in Hok; discriminate.
Qed.

(** ** C7 *)

(** C7, evaluated on 64 and on 65 distinct names.  With 65 names the 65th is
    stored past the end of [cities] while the file is still being read, before
    the count is compared with MAX_CITIES; with 64 names the input passes the
    check and [solve_tsp] shifts [1ULL] by 64.  On no input at all does [main]
    end with the too-many-cities error. *)
Theorem capacity_check_comes_too_late :
  run input_65 = Fault OutOfBounds /\
  run input_64 = Fault ShiftTooWide /\
  forall argc file r, main argc file = Ok r -> ~ In msg_too_many (stderr r).
Proof.
  split; [vm_compute; reflexivity|].
  split; [vm_compute; reflexivity|].
  intros argc file r H Hin.
  destruct (main_reports argc file r H) as [E|[E|[E|[E|[_ E]]]]];
    try (subst r; simpl in Hin; destruct Hin as [Hin|[]]; discriminate).
  rewrite E in Hin. contradiction.
Qed.

(** ** C8 *)




(** ** C9 *)

(** C9, evaluated on a line whose first name has 512 characters.  [fgets]
    hands over the first 99 characters, [sscanf] finds no '-' after them, and
    the program stops with the read error.  On no input at all does [main] end
    with the name-length error: the names [sscanf] stores never have 512
    characters. *)
Theorem long_name_reported_as_read_error :
  run input_long_name = Ok (fail_with msg_read) /\
  fst (fgets 99 input_long_name) = repeat_char "a"%char 99 /\
  sscanf_edge (repeat_char "a"%char 99) = None /\
  forall argc file r, main argc file = Ok r -> ~ In msg_name_too_long (stderr r).
Proof.
  split; [vm_compute; reflexivity|].
  split; [vm_compute; reflexivity|].
  split; [vm_compute; reflexivity|].
  intros argc file r H Hin.
  destruct (main_reports argc file r H) as [E|[E|[E|[E|[_ E]]]]];
    try (subst r; simpl in Hin; destruct Hin as [Hin|[]]; discriminate).
  rewrite E in Hin. contradiction.
Qed.

(** ** C10 *)

(** C10, as amended.  For every input that parses to exactly one city, the
    root call returns 0, the reconstruction loop emits no edge, and the program
    prints the header line and [Total cost: 0] and exits with code 0; no line
    of the report names the city. *)
Theorem single_city_report (content : string) (g : graph) :
  parse content = Ok (inr g) ->
  g_city_count g = 1 ->
  solve_tsp_run 1 (g_di g) = Ok (0, Some start_walk) /\
  w_edges start_walk = [] /\
  run content =
    Ok {| exit_code := 0;
          stdout := [msg_header; "Total cost: 0"%string];
          stderr := [] |}.
Proof.
  intros Hparse Hone.
  split; [reflexivity|]. split; [reflexivity|].
  unfold run, main. simpl negb. cbv iota.
  rewrite Hparse. cbn [bind]. rewrite Hone. reflexivity.
Qed.

Lemma single_city_report_witness :
  solve_tsp_run 1 (di_of [(0, 0, 3)]) = Ok (0, Some start_walk) /\
  w_edges start_walk = [] /\
  run input_single =
    Ok {| exit_code := 0;
          stdout := [msg_header; "Total cost: 0"%string];
          stderr := [] |}.
Proof.
  apply (single_city_report input_single
           {| g_cities := ["Zurich"%string]; g_di := di_of [(0, 0, 3)] |});
    vm_compute; reflexivity.
Defined.

(** C10 as stated fails on Zurich-Zurich: 3: the report has no itinerary line
    and does not contain the name of the start city. *)
Lemma single_city_name_not_printed :
  exists r,
    run input_single = Ok r /\
    exit_code r = 0 /\
    stdout r = [msg_header; "Total cost: 0"%string] /\
    forallb (fun line =>
               match index 0 "Zurich"%string line with
               | None => true
               | Some _ => false
               end) (stdout r) = true.
Proof.
  eexists. split; [vm_compute; reflexivity|].
  repeat split; vm_compute; reflexivity.
Qed.
